(** * txamqp/codec.py: the AMQP field codec, embedded and verified

    A shallow embedding of [src/txamqp/codec.py] (Python 2).  The [Codec]
    object is a record that is threaded through a state-and-exception monad;
    the stream it is bound to is the [cStringIO.StringIO] object that the
    file's own harness ([test]) and [encode_field_table] use.

    Conventions.
    - A Python 2 [str] is a byte string: [bytes := list ascii].
    - Python integers are unbounded: [Z].
    - [struct.pack] follows Python 2.7: an integer outside the range of its
      format code raises [struct.error]. *)

From Stdlib Require Import ZArith Lia Ascii String.
From stdpp Require Import gmap strings list fin_maps.

#[local] Set Warnings "-register-all".
#[local] Open Scope Z_scope.

(** ** Byte strings *)

Abbreviation bytes := (list ascii).

Definition ord (a : ascii) : Z := Z.of_N (N_of_ascii a).
Definition chr (z : Z) : ascii := ascii_of_N (Z.to_N z).
Definition len {A} (l : list A) : Z := Z.of_nat (length l).
Definition b (s : string) : bytes := list_ascii_of_string s.

(** Big-endian ("network order", the [!] of every format string used)
    rendering of [z] modulo [256 ^ n] on [n] bytes, and its inverse. *)
Fixpoint be_bytes (n : nat) (z : Z) : bytes :=
  match n with
  | O => []
  | S n' => chr ((z / 256 ^ Z.of_nat n') mod 256) :: be_bytes n' z
  end.

Definition be_int (bs : bytes) : Z :=
  fold_left (fun acc a => acc * 256 + ord a) bs 0.

(** ** Python values *)

(** [decimal.Decimal]: [_sign] is 0 or 1, [_int] the coefficient (Python
    keeps its digits in a string), [_exp] an integer for a finite number and
    one of the strings ['F'], ['n'], ['N'] for Infinity, NaN and sNaN. *)
Inductive dexp := Exp (e : Z) | ExpF | Expn | ExpN.

Record Decimal := mkDecimal { _sign : bool; _int : Z; _exp : dexp }.

Inductive fwidth := F32 | F64.

(** The Python objects the codec handles.  A float is represented by the
    IEEE-754 pattern it is unpacked from ([VFloat w bits]); no arithmetic on
    floats is modelled. *)
Inductive value :=
  | VBool (x : bool)
  | VInt (z : Z)
  | VFloat (w : fwidth) (bits : Z)
  | VDecimal (d : Decimal)
  | VStr (s : bytes)
  | VTuple (l : list value)
  | VList (l : list value)
  | VDict (m : gmap bytes value).

(** ** Exceptions *)

(** The text of a [ValueError]:
    - ["Uncompatible type"]
    - ["Unkown value type: %s" % repr(type)]
    - ["Problem with size of field array (%d != %d)" % (real_size, size)]
    - the library's own message when [int()] is applied to a NaN. *)
Inductive message :=
  | Uncompatible_type
  | Unkown_value_type (type : bytes)
  | Problem_with_size_of_field_array (real_size size : Z)
  | Cannot_convert_NaN_to_integer.

Inductive exn :=
  | EOF
  | struct_error
  | ValueError (msg : message)
  | TypeError
  | IndexError
  | AttributeError
  | OverflowError
  | InvalidOperation.

(** ** The stream: [cStringIO.StringIO()] *)

Record StringIO := mkStringIO { buf : bytes; pos : nat }.

Definition StringIO_new : StringIO := {| buf := []; pos := 0 |}.

(** [read(n)]: at most [n] bytes from the current position (all of the rest
    when [n] is negative); a short or empty result at the end of the data. *)
Definition StringIO_read (n : Z) (s : StringIO) : bytes * StringIO :=
  let rest := drop (pos s) (buf s) in
  let data := if n <? 0 then rest else take (Z.to_nat n) rest in
  (data, {| buf := buf s; pos := (pos s + length data)%nat |}).

(** [write(d)]: overwrite at the current position, growing the buffer (and
    zero-filling a gap left by a seek beyond the end). *)
Definition StringIO_write (d : bytes) (s : StringIO) : StringIO :=
  {| buf := take (pos s) (buf s)
            ++ replicate (pos s - length (buf s)) (chr 0)
            ++ d ++ drop (pos s + length d) (buf s);
     pos := (pos s + length d)%nat |}.

Definition getvalue (s : StringIO) : bytes := buf s.
Definition reset (s : StringIO) : StringIO := {| buf := buf s; pos := 0 |}.
Definition remaining (s : StringIO) : bytes := drop (pos s) (buf s).

(** ** The codec object and its monad *)

Record Codec := mkCodec {
  stream : StringIO;
  nwrote : Z;
  nread : Z;
  incoming_bits : list bool;
  outgoing_bits : list bool
}.

(** [Codec.__init__] *)
Definition Codec_init (s : StringIO) : Codec :=
  {| stream := s; nwrote := 0; nread := 0;
     incoming_bits := []; outgoing_bits := [] |}.

Definition set_stream (s : StringIO) (c : Codec) : Codec :=
  {| stream := s; nwrote := nwrote c; nread := nread c;
     incoming_bits := incoming_bits c; outgoing_bits := outgoing_bits c |}.
Definition set_nwrote (n : Z) (c : Codec) : Codec :=
  {| stream := stream c; nwrote := n; nread := nread c;
     incoming_bits := incoming_bits c; outgoing_bits := outgoing_bits c |}.
Definition set_nread (n : Z) (c : Codec) : Codec :=
  {| stream := stream c; nwrote := nwrote c; nread := n;
     incoming_bits := incoming_bits c; outgoing_bits := outgoing_bits c |}.
Definition set_incoming_bits (l : list bool) (c : Codec) : Codec :=
  {| stream := stream c; nwrote := nwrote c; nread := nread c;
     incoming_bits := l; outgoing_bits := outgoing_bits c |}.
Definition set_outgoing_bits (l : list bool) (c : Codec) : Codec :=
  {| stream := stream c; nwrote := nwrote c; nread := nread c;
     incoming_bits := incoming_bits c; outgoing_bits := l |}.

(** What a method call does to the codec: it returns a value, or raises an
    exception (the codec keeps the mutations made so far), or the model's
    recursion budget is exhausted. *)
Inductive outcome (A : Type) :=
  | Return (a : A) (c : Codec)
  | Raise (e : exn) (c : Codec)
  | OutOfFuel.
Arguments Return {A} a c.
Arguments Raise {A} e c.
Arguments OutOfFuel {A}.

Definition M (A : Type) : Type := Codec -> outcome A.

Definition ret {A} (a : A) : M A := fun c => Return a c.
Definition raise {A} (e : exn) : M A := fun c => Raise e c.
Definition bind {A B} (m : M A) (k : A -> M B) : M B := fun c =>
  match m c with
  | Return a c' => k a c'
  | Raise e c' => Raise e c'
  | OutOfFuel => OutOfFuel
  end.

Notation "'do' x <- m ; k" := (bind m (fun x => k))
  (at level 10, x pattern, m at level 100, k at level 200).
Notation "m1 ;; m2" := (bind m1 (fun _ => m2))
  (at level 100, m2 at level 200, right associativity).

(** [for x in l: body(x)] *)
Fixpoint for_ {A} (l : list A) (body : A -> M unit) : M unit :=
  match l with
  | [] => ret tt
  | x :: l' => body x ;; for_ l' body
  end.

(** ** The [struct] module *)

(** The format codes the codec uses, each behind the [!] (network order,
    standard sizes, no alignment) prefix. *)
Inductive fmt :=
  | fmt_x | fmt_c | fmt_bool
  | fmt_b | fmt_B | fmt_h | fmt_H | fmt_i | fmt_l | fmt_L | fmt_q | fmt_Q
  | fmt_f | fmt_d.

Definition calcsize (f : fmt) : Z :=
  match f with
  | fmt_x | fmt_c | fmt_bool | fmt_b | fmt_B => 1
  | fmt_h | fmt_H => 2
  | fmt_i | fmt_l | fmt_L | fmt_f => 4
  | fmt_q | fmt_Q | fmt_d => 8
  end.

(** Signedness and width in bytes of the integer codes. *)
Definition int_code (f : fmt) : option (bool * nat) :=
  match f with
  | fmt_b => Some (true, 1%nat) | fmt_B => Some (false, 1%nat)
  | fmt_h => Some (true, 2%nat) | fmt_H => Some (false, 2%nat)
  | fmt_i | fmt_l => Some (true, 4%nat) | fmt_L => Some (false, 4%nat)
  | fmt_q => Some (true, 8%nat) | fmt_Q => Some (false, 8%nat)
  | _ => None
  end.

Definition in_range (signed : bool) (w : nat) (z : Z) : bool :=
  if signed
  then (- 2 ^ (8 * Z.of_nat w - 1) <=? z) && (z <? 2 ^ (8 * Z.of_nat w - 1))
  else (0 <=? z) && (z <? 2 ^ (8 * Z.of_nat w)).

Definition to_signed (w : nat) (z : Z) : Z :=
  if z <? 2 ^ (8 * Z.of_nat w - 1) then z else z - 2 ^ (8 * Z.of_nat w).

(** Python truth value ([bool(v)]). *)
Definition truth (v : value) : bool :=
  match v with
  | VBool x => x
  | VInt z => negb (z =? 0)
  | VFloat F32 bits => negb (bits mod 2 ^ 31 =? 0)
  | VFloat F64 bits => negb (bits mod 2 ^ 63 =? 0)
  | VDecimal d => match _exp d with Exp _ => negb (_int d =? 0) | _ => true end
  | VStr s => negb (len s =? 0)
  | VTuple l | VList l => negb (len l =? 0)
  | VDict m => negb (bool_decide (m = ∅))
  end.

(** The integer an argument of an integer code denotes: an [int]/[long], or
    a [bool] (a subclass of [int]). *)
Definition index (v : value) : option Z :=
  match v with
  | VInt z => Some z
  | VBool x => Some (if x then 1 else 0)
  | _ => None
  end.

(** [struct.pack("!" + code, *args)]; [None] stands for [struct.error].
    Not modelled, and not used below: the coercion Python 2.7 still applies
    (with a DeprecationWarning) to a float or Decimal given to an integer
    code, and the conversion of a number to an IEEE pattern for [f] and [d]
    (only a float of the same width is packed). *)
Definition struct_pack (f : fmt) (args : list value) : option bytes :=
  match f, args with
  | fmt_x, [] => Some [chr 0]
  | fmt_c, [VStr [a]] => Some [a]
  | fmt_bool, [v] => Some [chr (if truth v then 1 else 0)]
  | fmt_f, [VFloat F32 bits] => Some (be_bytes 4 bits)
  | fmt_d, [VFloat F64 bits] => Some (be_bytes 8 bits)
  | _, [v] =>
      match int_code f, index v with
      | Some (signed, w), Some z =>
          if in_range signed w z then Some (be_bytes w z) else None
      | _, _ => None
      end
  | _, _ => None
  end.

(** [struct.unpack("!" + code, data)]: the tuple of values; [None] stands for
    [struct.error] (the length of [data] is not [calcsize]). *)
Definition struct_unpack (f : fmt) (data : bytes) : option (list value) :=
  if len data =? calcsize f then
    Some match f with
         | fmt_x => []
         | fmt_c => [VStr data]
         | fmt_bool => [VBool (negb (be_int data =? 0))]
         | fmt_f => [VFloat F32 (be_int data)]
         | fmt_d => [VFloat F64 (be_int data)]
         | _ => match int_code f with
                | Some (true, w) => [VInt (to_signed w (be_int data))]
                | _ => [VInt (be_int data)]
                end
         end
  else None.

(** ** [Codec]: reading and writing *)

Definition get {A} (field : Codec -> A) : M A := fun c => Return (field c) c.
Definition modify (f : Codec -> Codec) : M unit := fun c => Return tt (f c).

(** [int_of v]: the use of a decoded value as an integer. *)
Definition int_of (v : value) : M Z :=
  match index v with
  | Some z => ret z
  | None => raise TypeError
  end.

(** [Codec.read] *)
Definition read (n : Z) : M bytes := fun c =>
  let '(data, st) := StringIO_read n (stream c) in
  let c := set_stream st c in
  if (0 <? n) && (len data =? 0) then Raise EOF c
  else Return data (set_nread (nread c + len data) c).

(** [flushbits], [write], [pack] and [encode_octet] call one another:
    [flushbits -> encode_octet -> encode_short_short_uint -> pack -> write
    -> flushbits].  The methods on that cycle are first written over the
    [flushbits] they call. *)
Section Write.
Variable flushbits : M unit.

(** [Codec.write] *)
Definition write_with (s : bytes) : M unit :=
  flushbits ;;
  modify (fun c => set_stream (StringIO_write s (stream c)) c) ;;
  modify (fun c => set_nwrote (nwrote c + len s) c).

(** [Codec.pack]: the argument [pack(fmt, *args)] is evaluated first. *)
Definition pack_with (f : fmt) (args : list value) : M unit :=
  match struct_pack f args with
  | Some s => write_with s
  | None => raise struct_error
  end.

Definition encode_short_short_uint_with (o : value) : M unit :=
  pack_with fmt_B [o].

Definition encode_octet_with (o : value) : M unit :=
  encode_short_short_uint_with o.
End Write.

(** The loop of [flushbits] over the queued bits: one step on
    [(bytes, index)].  ([bytes[-1]] would raise on an empty list; the list is
    never empty there, since [index] is 0 at the first bit.) *)
Definition flushbits_step (st : list Z * Z) (x : bool) : list Z * Z :=
  let '(bytes, index) := st in
  let bytes := if index =? 0 then bytes ++ [0] else bytes in
  let bytes :=
    if x
    then alter (fun y => Z.lor y (Z.shiftl 1 index)) (length bytes - 1)%nat bytes
    else bytes in
  (bytes, (index + 1) mod 8).

Definition pack_bits (bits : list bool) : list Z :=
  fst (fold_left flushbits_step bits ([], 0)).

(** [Codec.flushbits] over the [flushbits] that [write] calls back. *)
Definition flushbits_with (flushbits : M unit) : M unit := fun c =>
  if 0 <? len (outgoing_bits c) then
    let bytes := pack_bits (outgoing_bits c) in
    (modify (set_outgoing_bits []) ;;
     for_ bytes (fun byte => encode_octet_with flushbits (VInt byte))) c
  else Return tt c.

(** [Codec.flushbits], with a budget for the depth of the cycle. *)
Fixpoint flushbits_rec (fuel : nat) : M unit :=
  match fuel with
  | O => fun _ => OutOfFuel
  | S fuel' => flushbits_with (flushbits_rec fuel')
  end.

(** Depth 2 is all the cycle ever reaches ([flushbits_rec_flushed] below): the
    inner [flushbits] finds the queue emptied by the outer one. *)
Definition flushbits : M unit := flushbits_rec 2.

Definition write : bytes -> M unit := write_with flushbits.
Definition pack : fmt -> list value -> M unit := pack_with flushbits.

(** [Codec.flush]; [StringIO.flush] does nothing. *)
Definition flush : M unit := flushbits.

(** [Codec.unpack] *)
Definition unpack (f : fmt) : M value :=
  let size := calcsize f in
  do data <- read size;
  match struct_unpack f data with
  | None => raise struct_error
  | Some [v] => ret v
  | Some values => ret (VTuple values)
  end.

(** ** Primitive encoders and decoders *)

Definition encode_bit (o : bool) : M unit :=
  if o
  then modify (fun c => set_outgoing_bits (outgoing_bits c ++ [true]) c)
  else modify (fun c => set_outgoing_bits (outgoing_bits c ++ [false]) c).

Definition encode_boolean (o : value) : M unit := pack fmt_bool [o].
Definition decode_boolean : M value := unpack fmt_bool.
Definition encode_short_short_int (o : value) : M unit := pack fmt_b [o].
Definition decode_short_short_int : M value := unpack fmt_b.
Definition encode_short_short_uint (o : value) : M unit := pack fmt_B [o].
Definition decode_short_short_uint : M value := unpack fmt_B.
Definition encode_short_int (o : value) : M unit := pack fmt_h [o].
Definition decode_short_int : M value := unpack fmt_h.
Definition encode_short_uint (o : value) : M unit := pack fmt_H [o].
Definition decode_short_uint : M value := unpack fmt_H.
Definition encode_long_int (o : value) : M unit := pack fmt_l [o].
Definition decode_long_int : M value := unpack fmt_l.
Definition encode_long_uint (o : value) : M unit := pack fmt_L [o].
Definition decode_long_uint : M value := unpack fmt_L.
Definition encode_long_long_int (o : value) : M unit := pack fmt_q [o].
Definition decode_long_long_int : M value := unpack fmt_q.
Definition encode_long_long_uint (o : value) : M unit := pack fmt_Q [o].
Definition decode_long_long_uint : M value := unpack fmt_Q.
Definition decode_float : M value := unpack fmt_f.
Definition decode_double : M value := unpack fmt_d.

Definition encode_octet (o : value) : M unit := encode_short_short_uint o.
Definition decode_octet : M value := decode_short_short_uint.
Definition encode_short (o : value) : M unit := encode_short_uint o.
Definition decode_short : M value := decode_short_uint.
Definition encode_long (o : value) : M unit := encode_long_uint o.
Definition decode_long : M value := decode_long_uint.
Definition encode_longlong (o : value) : M unit := encode_long_long_uint o.
Definition decode_longlong : M value := decode_long_long_uint.
Definition encode_timestamp (o : value) : M unit := encode_long_long_uint o.
Definition decode_timestamp : M value := decode_long_long_uint.

(** [encode_none(o)] packs ["!x"] with one argument, [decode_none] unpacks
    ["!x"]: a pad byte, no value. *)
Definition encode_none (o : value) : M unit := pack fmt_x [o].
Definition decode_none : M value := unpack fmt_x.

(** [decode_bit]: [bits >> i & 1 != 0] is [((bits >> i) & 1) != 0]. *)
Definition decode_bit : M bool :=
  (do n <- get (fun c => len (incoming_bits c));
   if n =? 0 then
     do bits <- decode_octet;
     do bits <- int_of bits;
     for_ (seqZ 0 8) (fun i =>
       modify (fun c => set_incoming_bits
         (incoming_bits c ++ [negb (Z.land (Z.shiftr bits i) 1 =? 0)]) c))
   else ret tt) ;;
  do q <- get incoming_bits;
  match q with
  | [] => raise IndexError
  | x :: q' => modify (set_incoming_bits q') ;; ret x
  end.

(** ** The [decimal] module (default context: 28 digits, ROUND_HALF_EVEN)

    The exponent limits of the context ([Emin], [Emax] = -/+ 999999999) are
    not modelled, except as the bound of the loop of [normalize]. *)











(** ** Decimal values and strings *)


(** [decode_decimal_value]: [Decimal(raw) * (Decimal(10) ** -decimals)]. *)
Definition decode_decimal_value : M value :=
  do decimals <- decode_short_short_uint;
  do decimals <- int_of decimals;
  do raw <- decode_long_uint;
  do raw <- int_of raw;
  ret (VDecimal (mkDecimal false raw (Exp (- decimals)))).

Definition encode_short_string (s : bytes) : M unit :=
  let size := len s in
  encode_short_short_uint (VInt size) ;;
  write s.

Definition decode_short_string : M bytes :=
  do size <- decode_short_short_uint;
  do size <- int_of size;
  read size.

Definition encode_long_string (s : bytes) : M unit :=
  let size := len s in
  encode_short_short_uint (VInt size) ;;
  write s.

Definition decode_long_string : M bytes :=
  do size <- decode_long_uint;
  do size <- int_of size;
  read size.

Definition enc_str (f : fmt) (s : bytes) : M unit :=
  let size := len s in
  pack f [VInt size] ;;
  write s.

Definition dec_str (f : fmt) : M bytes :=
  do size <- unpack f;
  do size <- int_of size;
  read size.

Definition encode_shortstr (s : bytes) : M unit := encode_short_string s.
Definition decode_shortstr : M bytes := decode_short_string.
Definition decode_longstr : M bytes := dec_str fmt_L.

(** ** Field values, arrays and tables *)

(** [field_value], [decode_field_array] and [decode_field_table] call one
    another; the three are first written over the [field_value] that the
    containers call.  The [while] loops take an iteration budget. *)
Section Containers.
Variable field_value : M value.

(** [while self.nread - start < size: result.append(self.field_value())] *)
Fixpoint array_loop (fuel : nat) (start size : Z) (result : list value)
  : M (list value) :=
  match fuel with
  | O => fun _ => OutOfFuel
  | S fuel' =>
      do nread <- get nread;
      if nread - start <? size then
        do v <- field_value;
        array_loop fuel' start size (result ++ [v])
      else ret result
  end.

(** [decode_field_array] *)
Definition decode_field_array_with (fuel : nat) : M (list value) :=
  do size <- decode_long_int;
  do size <- int_of size;
  do start <- get nread;
  do result <- array_loop fuel start size [];
  do nread <- get nread;
  let real_size := nread - start in
  if negb (real_size =? size) then
    raise (ValueError (Problem_with_size_of_field_array real_size size))
  else ret result.

(** [while self.nread - start < size:
       key = self.decode_short_string()
       result[key] = self.field_value()] *)
Fixpoint table_loop (fuel : nat) (start size : Z)
    (result : gmap bytes value) : M (gmap bytes value) :=
  match fuel with
  | O => fun _ => OutOfFuel
  | S fuel' =>
      do nread <- get nread;
      if nread - start <? size then
        do key <- decode_short_string;
        do v <- field_value;
        table_loop fuel' start size (<[key := v]> result)
      else ret result
  end.

(** [decode_field_table] *)
Definition decode_field_table_with (fuel : nat) : M (gmap bytes value) :=
  do size <- decode_long_uint;
  do size <- int_of size;
  do start <- get nread;
  table_loop fuel start size ∅.
(** [field_value], at budget [S fuel]. *)
Definition field_value_with (fuel : nat) : M value :=
  do type <- read 1;
  if bool_decide (type = b "t") then decode_boolean
  else if bool_decide (type = b "b") then decode_short_short_int
  else if bool_decide (type = b "B") then decode_short_short_uint
  else if bool_decide (type = b "U") then decode_short_int
  else if bool_decide (type = b "u") then decode_short_uint
  else if bool_decide (type = b "I") then decode_long_int
  else if bool_decide (type = b "i") then decode_long_uint
  else if bool_decide (type = b "L") then decode_long_long_int
  else if bool_decide (type = b "l") then decode_long_long_uint
  else if bool_decide (type = b "f") then decode_float
  else if bool_decide (type = b "d") then decode_double
  else if bool_decide (type = b "D") then decode_decimal_value
  else if bool_decide (type = b "s") then
    do s <- decode_short_string; ret (VStr s)
  else if bool_decide (type = b "S") then
    do s <- decode_long_string; ret (VStr s)
  else if bool_decide (type = b "A") then
    do l <- decode_field_array_with fuel; ret (VList l)
  else if bool_decide (type = b "T") then decode_timestamp
  else if bool_decide (type = b "F") then
    do m <- decode_field_table_with fuel; ret (VDict m)
  else if bool_decide (type = b "V") then decode_none
  else raise (ValueError (Unkown_value_type type)).
End Containers.

(** The eighteen tags [field_value] knows, in the order it tests them. *)
Definition tags : list bytes :=
  map b ["t"; "b"; "B"; "U"; "u"; "I"; "i"; "L"; "l"; "f"; "d"; "D"; "s";
         "S"; "A"; "T"; "F"; "V"]%string.

(** [field_value], with a budget for the depth of nested containers (and,
    in each container, for the iterations of its loop). *)
Fixpoint field_value (fuel : nat) : M value :=
  match fuel with
  | O => fun _ => OutOfFuel
  | S fuel' => field_value_with (field_value fuel') fuel'
  end.

Definition decode_field_array (fuel : nat) : M (list value) :=
  decode_field_array_with (field_value fuel) fuel.

Definition decode_field_table (fuel : nat) : M (gmap bytes value) :=
  decode_field_table_with (field_value fuel) fuel.

Definition decode_table (fuel : nat) : M (gmap bytes value) :=
  decode_field_table fuel.

(** [encode_longstr] on a string ([isinstance(s, dict)] is false), which is
    how [encode_field_table] calls it; a [dict] goes to [encode_table]. *)
Definition encode_longstr (s : bytes) : M unit := enc_str fmt_L s.

(** The loop of [encode_field_table], run by the inner codec over
    [tbl.items()]. *)
Definition encode_item (item : bytes * value) : M unit :=
  let '(key, value) := item in
  encode_shortstr key ;;
  match value with
  | VStr s => write (b "S") ;; encode_longstr s
  | _ => write (b "I") ;; encode_long value
  end.

(** [encode_field_table]: the items are encoded by a fresh codec on a fresh
    [StringIO]; an exception in there leaves this codec untouched. *)
Definition encode_field_table (tbl : gmap bytes value) : M unit :=
  let enc := StringIO_new in
  let codec := Codec_init enc in
  match for_ (map_to_list tbl) encode_item codec with
  | Return _ codec =>
      let s := getvalue (stream codec) in
      encode_long_uint (VInt (len s)) ;;
      write s
  | Raise e _ => raise e
  | OutOfFuel => fun _ => OutOfFuel
  end.

Definition encode_table (tbl : gmap bytes value) : M unit :=
  encode_field_table tbl.

(** [Codec.decode]: [getattr(self, "decode_" + type)()]. *)
Definition decode (fuel : nat) (type : string) : M value :=
  let str (m : M bytes) : M value := do s <- m; ret (VStr s) in
  match type with
  | "bit" => do x <- decode_bit; ret (VBool x)
  | "boolean" => decode_boolean
  | "short_short_int" => decode_short_short_int
  | "short_short_uint" => decode_short_short_uint
  | "short_int" => decode_short_int
  | "short_uint" => decode_short_uint
  | "long_int" => decode_long_int
  | "long_uint" => decode_long_uint
  | "long_long_int" => decode_long_long_int
  | "long_long_uint" => decode_long_long_uint
  | "float" => decode_float
  | "double" => decode_double
  | "decimal_value" => decode_decimal_value
  | "short_string" => str decode_short_string
  | "long_string" => str decode_long_string
  | "field_array" => do l <- decode_field_array fuel; ret (VList l)
  | "timestamp" => decode_timestamp
  | "table" => do m <- decode_table fuel; ret (VDict m)
  | "field_table" => do m <- decode_field_table fuel; ret (VDict m)
  | "none" => decode_none
  | "octet" => decode_octet
  | "short" => decode_short
  | "long" => decode_long
  | "longlong" => decode_longlong
  | "shortstr" => str decode_shortstr
  | "longstr" => str decode_longstr
  | _ => raise AttributeError
  end%string.

(** * Definitions the statements use *)

(** The octet a group of at most eight bits packs into, first bit lowest. *)
Definition byte_of_bits (chunk : list bool) : Z :=
  fold_right (fun (x : bool) acc => (if x then 1 else 0) + 2 * acc) 0 chunk.

(** The eight bits [decode_bit] queues from one octet. *)
Definition unpack8 (bits : Z) : list bool :=
  map (fun i => negb (Z.land (Z.shiftr bits i) 1 =? 0)) (seqZ 0 8).

(** The codec after [stream.write(s)] and [nwrote += len(s)]. *)
Definition wrote (s : bytes) (c : Codec) : Codec :=
  set_nwrote (nwrote c + len s) (set_stream (StringIO_write s (stream c)) c).

(** The codec after the octets [l] went out one by one. *)
Definition wrote_octets (l : list Z) (c : Codec) : Codec :=
  fold_left (fun c y => wrote [chr y] c) l c.

(** The codec after [flushbits]. *)
Definition flushed (c : Codec) : Codec :=
  wrote_octets (pack_bits (outgoing_bits c)) (set_outgoing_bits [] c).

(** A stand-in for the inner [flushbits] that only works on an empty queue. *)
Definition on_empty_queue : M unit := fun c =>
  match outgoing_bits c with
  | [] => Return tt c
  | _ => OutOfFuel
  end.

(** The codec after [k] bytes were read. *)
Definition advanced (k : nat) (c : Codec) : Codec :=
  set_nread (nread c + Z.of_nat k)
    (set_stream {| buf := buf (stream c); pos := (pos (stream c) + k)%nat |} c).

(** The loop of the harness [test]: [n] calls of [decode("bit")]. *)
Fixpoint decode_bits (n : nat) : M (list bool) :=
  match n with
  | O => ret []
  | S n' => do x <- decode_bit; do l <- decode_bits n'; ret (x :: l)
  end.

(** The names [Codec.decode] resolves. *)
Definition decode_names : list string :=
  ["bit"; "boolean"; "short_short_int"; "short_short_uint"; "short_int";
   "short_uint"; "long_int"; "long_uint"; "long_long_int"; "long_long_uint";
   "float"; "double"; "decimal_value"; "short_string"; "long_string";
   "field_array"; "timestamp"; "table"; "field_table"; "none"; "octet";
   "short"; "long"; "longlong"; "shortstr"; "longstr"]%string.

(** The number of bytes the stream still holds. *)
Definition avail (c : Codec) : nat := length (remaining (stream c)).

(** A method that, when it returns, has not moved the stream backwards. *)
Definition nonincr {A} (m : M A) : Prop :=
  forall c a c', m c = Return a c' -> (avail c' <= avail c)%nat.

(** A method whose outcome never is the exhaustion of the budget. *)
Definition total {A} (m : M A) : Prop := forall c, m c <> OutOfFuel.

(** [m2] gives the outcome of [m1] wherever [m1] has one. *)
Definition refines {A} (m1 m2 : M A) : Prop :=
  forall c, m1 c = OutOfFuel \/ m1 c = m2 c.

(** The run of the loop of [decode_field_array]: the values decoded, one
    [field_value] after the other, from codec [c] until the bytes read since
    [start] are no longer fewer than [size]. *)
Inductive elements (fv : M value) (start size : Z)
  : Codec -> list value -> Codec -> Prop :=
  | elements_done (c : Codec) :
      ~ (nread c - start < size) ->
      elements fv start size c [] c
  | elements_more (c c1 c2 : Codec) (v : value) (l : list value) :
      nread c - start < size ->
      fv c = Return v c1 ->
      elements fv start size c1 l c2 ->
      elements fv start size c (v :: l) c2.

(** The bytes of one item: the key as a short string, then the tag and the
    value: [S] and a long string, or [I] and four bytes. *)
Definition item_enc (item : bytes * value) : bytes :=
  [chr (len item.1)] ++ item.1 ++
  match item.2 with
  | VStr s => b "S" ++ be_bytes 4 (len s) ++ s
  | v => b "I" ++ be_bytes 4 (default 0 (index v))
  end.

(** The body of a table: its items, in the order of [tbl.items()]. *)
Definition table_body (tbl : gmap bytes value) : bytes :=
  flat_map item_enc (map_to_list tbl).

(** The items the encoder can write. *)
Definition item_ok (item : bytes * value) : Prop :=
  len item.1 < 256
  /\ match item.2 with
     | VStr s => len s < 2 ^ 32
     | v => exists z, index v = Some z /\ 0 <= z < 2 ^ 32
     end.

(** A codec at the end of its stream, with nothing read and no bit queued:
    the inner codec of [encode_field_table] after it wrote [bs]. *)
Definition fresh (bs : bytes) : Codec :=
  {| stream := {| buf := bs; pos := length bs |};
     nwrote := len bs; nread := 0;
     incoming_bits := []; outgoing_bits := [] |}.

(** What [field_value] gives back for a value the encoder wrote: the long
    of tag [I] went out unsigned and comes back signed. *)
Definition decoded (v : value) : value :=
  match v with
  | VStr s => VStr s
  | v => VInt (to_signed 4 (default 0 (index v)))
  end.

(** The values [encode_field_table] is meant for: strings, and integers that
    fit the four unsigned bytes of [encode_long]. *)
Definition writable (v : value) : Prop :=
  match v with
  | VStr _ => True
  | VInt z => 0 <= z < 2 ^ 32
  | _ => False
  end.

(** The values that come back as they went. *)
Definition roundtrips (v : value) : Prop :=
  match v with
  | VStr _ => True
  | VInt z => 0 <= z < 2 ^ 31
  | _ => False
  end.

(** [stream.reset()], as the harness [test] does between encoding and
    decoding. *)
Definition rewind (c : Codec) : Codec := set_stream (reset (stream c)) c.

(** A method that returns or raises [struct.error]. *)
Definition packs {A} (m : M A) : Prop :=
  forall c, (exists a c', m c = Return a c')
            \/ (exists c', m c = Raise struct_error c').

(** A method that raises [struct.error]. *)
Definition fails {A} (m : M A) : Prop :=
  forall c, exists c', m c = Raise struct_error c'.

(** [c'] is [c] after some reading: the same buffer, every byte gone from
    the stream counted in [nread], and nothing else touched. *)
Definition read_from (c c' : Codec) : Prop :=
  buf (stream c') = buf (stream c)
  /\ nread c' + Z.of_nat (length (remaining (stream c')))
     = nread c + Z.of_nat (length (remaining (stream c)))
  /\ nwrote c' = nwrote c
  /\ outgoing_bits c' = outgoing_bits c
  /\ incoming_bits c' = incoming_bits c.

(** A method that only reads, whether it returns or raises. *)
Definition reads_only {A} (m : M A) : Prop :=
  forall c,
    match m c with
    | Return _ c' | Raise _ c' => read_from c c'
    | OutOfFuel => True
    end.

(** The integer tags of [field_value]: signedness and width of each. *)
Definition int_tags : list (ascii * (bool * nat)) :=
  [("b", (true, 1)); ("B", (false, 1)); ("U", (true, 2)); ("u", (false, 2));
   ("I", (true, 4)); ("i", (false, 4)); ("L", (true, 8)); ("l", (false, 8));
   ("T", (false, 8))]%char%nat.

(** The loop of [decode_field_array] under way: the values decoded so far
    from codec [c], each started with fewer than [size] bytes read. *)
Inductive elements_so_far (fv : M value) (start size : Z)
  : Codec -> list value -> Codec -> Prop :=
  | so_far_none (c : Codec) : elements_so_far fv start size c [] c
  | so_far_more (c c1 c2 : Codec) (v : value) (l : list value) :
      nread c - start < size ->
      fv c = Return v c1 ->
      elements_so_far fv start size c1 l c2 ->
      elements_so_far fv start size c (v :: l) c2.

(** * Properties *)

(** ** Bytes and integers *)

Lemma ord_range (a : ascii) : 0 <= ord a < 256.
Proof.
  unfold ord. pose proof (N_ascii_bounded a). lia.
Qed.

Lemma ord_chr (z : Z) : 0 <= z < 256 -> ord (chr z) = z.
Proof.
  intros Hz. unfold ord, chr.
  rewrite N_ascii_embedding by lia. lia.
Qed.

Lemma chr_ord (a : ascii) : chr (ord a) = a.
Proof.
  unfold ord, chr. rewrite N2Z.id. apply ascii_N_embedding.
Qed.

Lemma len_app {A} (l1 l2 : list A) : len (l1 ++ l2) = len l1 + len l2.
Proof. unfold len. rewrite length_app. lia. Qed.

Lemma len_nonneg {A} (l : list A) : 0 <= len l.
Proof. unfold len. lia. Qed.

Lemma length_be_bytes (n : nat) (z : Z) : length (be_bytes n z) = n.
Proof. induction n as [|n IH]; simpl; [reflexivity | now rewrite IH]. Qed.

Lemma be_int_fold (bs : bytes) (acc : Z) :
  fold_left (fun acc a => acc * 256 + ord a) bs acc
  = acc * 256 ^ len bs + be_int bs.
Proof.
  unfold be_int. revert acc.
  induction bs as [|a bs IH]; intros acc.
  - simpl. unfold len. simpl. lia.
  - simpl. rewrite IH. rewrite (IH (0 * 256 + ord a)).
    replace (len (a :: bs)) with (Z.succ (len bs)) by (unfold len; simpl; lia).
    rewrite Z.pow_succ_r by apply len_nonneg. lia.
Qed.

Lemma be_int_cons (a : ascii) (bs : bytes) :
  be_int (a :: bs) = ord a * 256 ^ len bs + be_int bs.
Proof.
  unfold be_int at 1. simpl. apply be_int_fold.
Qed.

Lemma be_int_range (bs : bytes) : 0 <= be_int bs < 256 ^ len bs.
Proof.
  induction bs as [|a bs IH].
  - unfold be_int, len. simpl. lia.
  - rewrite be_int_cons.
    replace (len (a :: bs)) with (Z.succ (len bs)) by (unfold len; simpl; lia).
    rewrite Z.pow_succ_r by apply len_nonneg.
    pose proof (ord_range a). nia.
Qed.

(** Unpacking what [be_bytes] rendered gives the integer back, modulo the
    width. *)
Lemma be_int_be_bytes (n : nat) (z : Z) :
  be_int (be_bytes n z) = z mod 256 ^ Z.of_nat n.
Proof.
  induction n as [|n IH].
  - simpl. now rewrite Z.mod_1_r.
  - cbn [be_bytes]. rewrite be_int_cons, IH.
    unfold len. rewrite length_be_bytes.
    rewrite ord_chr by (apply Z.mod_pos_bound; lia).
    rewrite Nat2Z.inj_succ, Z.pow_succ_r by lia.
    rewrite (Z.mul_comm 256).
    rewrite (Z.rem_mul_r z (256 ^ Z.of_nat n) 256) by lia.
    lia.
Qed.

(** ** The stream *)

Lemma StringIO_write_end (d : bytes) (s : StringIO) :
  pos s = length (buf s) ->
  StringIO_write d s = {| buf := buf s ++ d; pos := length (buf s ++ d) |}.
Proof.
  intros Hp. unfold StringIO_write. rewrite Hp.
  rewrite take_ge by lia. rewrite drop_ge by lia.
  rewrite Nat.sub_diag. simpl. rewrite app_nil_r.
  now rewrite length_app.
Qed.

(** Writing octet after octet is writing their concatenation. *)
Lemma StringIO_write_write (d1 d2 : bytes) (s : StringIO) :
  StringIO_write d2 (StringIO_write d1 s) = StringIO_write (d1 ++ d2) s.
Proof.
  unfold StringIO_write. cbn [buf pos].
  set (pre := take (pos s) (buf s) ++ replicate (pos s - length (buf s)) (chr 0)).
  assert (Hpre : length pre = pos s).
  { unfold pre. rewrite length_app, length_take, length_replicate. lia. }
  rewrite !app_assoc. fold pre. rewrite <- !app_assoc.
  f_equal; [|rewrite length_app; lia].
  rewrite (app_assoc pre d1).
  rewrite take_app_length' by (rewrite length_app; lia).
  rewrite !length_app, Hpre.
  replace (pos s + length d1 - (pos s + length d1 + length (drop (pos s + length d1) (buf s))))%nat
    with 0%nat by lia.
  cbn [replicate app].
  rewrite <- !app_assoc. do 3 f_equal.
  rewrite (app_assoc pre d1).
  rewrite drop_app_add' by (rewrite length_app; lia).
  rewrite drop_drop. f_equal. lia.
Qed.

Lemma StringIO_read_remaining (n : Z) (s : StringIO) :
  0 <= n ->
  StringIO_read n s
  = (take (Z.to_nat n) (remaining s),
     {| buf := buf s; pos := (pos s + length (take (Z.to_nat n) (remaining s)))%nat |}).
Proof.
  intros Hn. unfold StringIO_read, remaining.
  destruct (n <? 0) eqn:E; [lia | reflexivity].
Qed.

(** ** The bit loop of [flushbits] *)

Lemma alter_last {A} (f : A -> A) (l : list A) (x : A) :
  alter f (length (l ++ [x]) - 1)%nat (l ++ [x]) = l ++ [f x].
Proof.
  rewrite length_app. simpl.
  rewrite alter_app_r_alt by lia.
  replace (length l + 1 - 1 - length l)%nat with 0%nat by lia.
  reflexivity.
Qed.

(** A step only touches the last octet: octets before it are a frame. *)
Lemma flushbits_step_frame (pre bs : list Z) (index : Z) (x : bool) :
  bs <> [] \/ index = 0 ->
  flushbits_step (pre ++ bs, index) x
  = (pre ++ fst (flushbits_step (bs, index) x),
     snd (flushbits_step (bs, index) x))
  /\ fst (flushbits_step (bs, index) x) <> [].
Proof.
  intros H. unfold flushbits_step.
  destruct (index =? 0) eqn:E.
  - assert (Hn : bs ++ [0] <> []) by (destruct bs; discriminate).
    destruct x; cbn [fst snd].
    + split.
      * f_equal. rewrite <- app_assoc.
        rewrite alter_app_r_alt
          by (rewrite !length_app; simpl; lia).
        do 2 f_equal. rewrite !length_app. simpl. lia.
      * rewrite alter_last. destruct bs; discriminate.
    + split; [now rewrite app_assoc | assumption].
  - destruct H as [H|H]; [|lia].
    assert (Hl : (0 < length bs)%nat) by (destruct bs; [congruence | simpl; lia]).
    destruct x; cbn [fst snd].
    + split.
      * f_equal. rewrite alter_app_r_alt by (rewrite length_app; lia).
        do 2 f_equal. rewrite length_app. lia.
      * intros Hc. apply (f_equal length) in Hc.
        rewrite length_alter in Hc. simpl in Hc. lia.
    + split; [reflexivity | assumption].
Qed.

Lemma flushbits_loop_frame (bits : list bool) (pre bs : list Z) (index : Z) :
  bs <> [] \/ index = 0 ->
  fold_left flushbits_step bits (pre ++ bs, index)
  = (pre ++ fst (fold_left flushbits_step bits (bs, index)),
     snd (fold_left flushbits_step bits (bs, index))).
Proof.
  revert bs index.
  induction bits as [|x bits IH]; intros bs index H.
  - reflexivity.
  - cbn [fold_left].
    destruct (flushbits_step_frame pre bs index x H) as [-> Hne].
    destruct (flushbits_step (bs, index) x) as [bs' index'].
    cbn [fst snd] in *. apply IH. now left.
Qed.

Lemma pack_bits_8 (x0 x1 x2 x3 x4 x5 x6 x7 : bool) :
  fold_left flushbits_step [x0; x1; x2; x3; x4; x5; x6; x7] ([], 0)
  = ([byte_of_bits [x0; x1; x2; x3; x4; x5; x6; x7]], 0).
Proof.
  destruct x0, x1, x2, x3, x4, x5, x6, x7; reflexivity.
Qed.

Lemma pack_bits_chunk (chunk rest : list bool) :
  length chunk = 8%nat ->
  pack_bits (chunk ++ rest) = byte_of_bits chunk :: pack_bits rest.
Proof.
  intros Hl.
  do 9 (destruct chunk as [|? chunk]; try discriminate).
  unfold pack_bits. rewrite fold_left_app, pack_bits_8.
  change [byte_of_bits ?l] with ([byte_of_bits l] ++ []).
  rewrite flushbits_loop_frame by now right.
  reflexivity.
Qed.

(** Case analysis on a list of at most eight bits. *)
Ltac bits_cases chunk Hl :=
  do 9 (destruct chunk as [|? chunk];
        [ try (simpl in Hl; lia);
          repeat match goal with x : bool |- _ => destruct x end;
          reflexivity | ]);
  simpl in Hl; lia.

Lemma pack_bits_short (chunk : list bool) :
  (0 < length chunk < 8)%nat ->
  pack_bits chunk = [byte_of_bits chunk].
Proof.
  intros Hl. bits_cases chunk Hl.
Qed.

Lemma unpack8_byte_of_bits (chunk : list bool) :
  (length chunk <= 8)%nat ->
  unpack8 (byte_of_bits chunk)
  = chunk ++ replicate (8 - length chunk) false.
Proof.
  intros Hl. bits_cases chunk Hl.
Qed.

Lemma byte_of_bits_range (chunk : list bool) :
  (length chunk <= 8)%nat -> 0 <= byte_of_bits chunk < 256.
Proof.
  intros Hl.
  assert (H : 0 <= byte_of_bits chunk < 2 ^ len chunk).
  { clear Hl. induction chunk as [|x chunk IH].
    - unfold len. simpl. lia.
    - replace (len (x :: chunk)) with (Z.succ (len chunk))
        by (unfold len; simpl; lia).
      rewrite Z.pow_succ_r by apply len_nonneg.
      cbn [byte_of_bits fold_right]. fold (byte_of_bits chunk).
      destruct x; lia. }
  assert (2 ^ len chunk <= 2 ^ 8)
    by (apply Z.pow_le_mono_r; unfold len; lia).
  lia.
Qed.

(** Lists of bits are taken eight at a time. *)
Lemma chunk_ind (P : list bool -> Prop) :
  P [] ->
  (forall chunk, (0 < length chunk < 8)%nat -> P chunk) ->
  (forall chunk rest, length chunk = 8%nat -> P rest -> P (chunk ++ rest)) ->
  forall bits, P bits.
Proof.
  intros Hnil Hshort Hfull bits.
  remember (length bits) as n eqn:Hn. revert bits Hn.
  induction n as [n IH] using lt_wf_ind. intros bits Hn.
  destruct (decide (n = 0%nat)) as [->|Hz].
  { destruct bits; [assumption | discriminate]. }
  destruct (decide (n < 8)%nat) as [Hlt|Hge].
  { apply Hshort. lia. }
  rewrite <- (take_drop 8 bits).
  apply Hfull.
  - rewrite length_take. lia.
  - apply (IH (length (drop 8 bits))); [rewrite length_drop; lia | reflexivity].
Qed.

(** What the loop produces: [ceil(N/8)] octets, each within an octet's
    range, holding the queued bits in order and false in the padding. *)
Lemma pack_bits_spec (bits : list bool) :
  length (pack_bits bits) = ((length bits + 7) / 8)%nat
  /\ Forall (fun y => 0 <= y < 256) (pack_bits bits)
  /\ flat_map unpack8 (pack_bits bits)
     = bits ++ replicate (8 * ((length bits + 7) / 8) - length bits) false.
Proof.
  induction bits as [| chunk Hl | chunk rest Hl IH] using chunk_ind.
  - repeat split; constructor.
  - rewrite pack_bits_short by assumption.
    assert (Hd : ((length chunk + 7) / 8 = 1)%nat).
    { symmetry. apply (Nat.div_unique _ 8 1 (length chunk - 1)); lia. }
    rewrite Hd. repeat split.
    + repeat constructor; apply byte_of_bits_range; lia.
    + cbn [flat_map]. rewrite app_nil_r, unpack8_byte_of_bits by lia.
      do 2 f_equal.
  - destruct IH as (IH1 & IH2 & IH3).
    rewrite pack_bits_chunk by assumption.
    assert (Hd : ((length (chunk ++ rest) + 7) / 8
                  = S ((length rest + 7) / 8))%nat).
    { rewrite length_app, Hl.
      replace (8 + length rest + 7)%nat with (length rest + 7 + 1 * 8)%nat by lia.
      rewrite Nat.div_add by lia. lia. }
    rewrite Hd. repeat split.
    + simpl. now rewrite IH1.
    + constructor; [apply byte_of_bits_range; lia | assumption].
    + cbn [flat_map]. rewrite IH3, unpack8_byte_of_bits by lia.
      rewrite Hl, Nat.sub_diag. cbn [replicate].
      rewrite app_nil_r, <- app_assoc.
      do 3 f_equal. rewrite length_app, Hl. lia.
Qed.

(** ** [write] and [flushbits] *)

Lemma wrote_octets_fields (l : list Z) (c : Codec) :
  outgoing_bits (wrote_octets l c) = outgoing_bits c
  /\ incoming_bits (wrote_octets l c) = incoming_bits c
  /\ nread (wrote_octets l c) = nread c
  /\ nwrote (wrote_octets l c) = nwrote c + len l
  /\ stream (wrote_octets l c)
     = fold_left (fun st y => StringIO_write [chr y] st) l (stream c).
Proof.
  revert c. induction l as [|y l IH]; intros c.
  - unfold len. simpl. repeat split. lia.
  - unfold wrote_octets in *. cbn [fold_left].
    destruct (IH (wrote [chr y] c)) as (-> & -> & -> & -> & ->).
    repeat split; try reflexivity.
    unfold wrote, len. cbn [nwrote set_nwrote length]. lia.
Qed.

Lemma be_bytes_1 (z : Z) : 0 <= z < 256 -> be_bytes 1 z = [chr z].
Proof.
  intros Hz. cbn [be_bytes]. rewrite Z.pow_0_r, Z.div_1_r.
  now rewrite Z.mod_small.
Qed.

Lemma write_with_empty (fb : M unit) (s : bytes) (c : Codec) :
  fb c = Return tt c -> write_with fb s c = Return tt (wrote s c).
Proof.
  intros H. unfold write_with, bind. now rewrite H.
Qed.

Lemma encode_octet_with_wrote (fb : M unit) (y : Z) (c : Codec) :
  fb c = Return tt c ->
  0 <= y < 256 ->
  encode_octet_with fb (VInt y) c = Return tt (wrote [chr y] c).
Proof.
  intros Hfb Hy.
  unfold encode_octet_with, encode_short_short_uint_with, pack_with.
  cbn [struct_pack int_code index].
  assert (Hr : in_range false 1 y = true).
  { unfold in_range. apply andb_true_intro.
    split; [apply Z.leb_le | apply Z.ltb_lt];
      change (2 ^ (8 * Z.of_nat 1)) with 256; lia. }
  rewrite Hr, be_bytes_1 by assumption.
  now apply write_with_empty.
Qed.

(** The loop of [flushbits] over the packed octets, when the inner
    [flushbits] leaves an empty queue alone. *)
Lemma for_encode_octet (fb : M unit) (l : list Z) (c : Codec) :
  (forall c', outgoing_bits c' = [] -> fb c' = Return tt c') ->
  Forall (fun y => 0 <= y < 256) l ->
  outgoing_bits c = [] ->
  for_ l (fun byte => encode_octet_with fb (VInt byte)) c
  = Return tt (wrote_octets l c).
Proof.
  intros Hfb Hl. revert c.
  induction Hl as [|y l Hy Hl IH]; intros c Hc.
  - reflexivity.
  - cbn [for_]. unfold bind at 1.
    rewrite encode_octet_with_wrote by auto.
    unfold wrote_octets. cbn [fold_left]. apply IH. exact Hc.
Qed.

Lemma flushbits_with_flushed (fb : M unit) (c : Codec) :
  (forall c', outgoing_bits c' = [] -> fb c' = Return tt c') ->
  flushbits_with fb c = Return tt (flushed c).
Proof.
  intros Hfb. unfold flushbits_with, flushed.
  destruct (0 <? len (outgoing_bits c)) eqn:E.
  - unfold bind at 1, modify.
    apply for_encode_octet; [assumption | apply pack_bits_spec | reflexivity].
  - destruct c as [st nw nr inc out]. cbn in *.
    destruct out; [reflexivity |].
    apply Z.ltb_ge in E. unfold len in E. cbn [length] in E. lia.
Qed.

Lemma flushbits_rec_empty (n : nat) (c : Codec) :
  outgoing_bits c = [] -> flushbits_rec (S n) c = Return tt c.
Proof.
  intros H. cbn [flushbits_rec]. unfold flushbits_with.
  rewrite H. reflexivity.
Qed.

(** Any budget of two or more gives the method's result; the budget never
    runs out. *)
Lemma flushbits_rec_flushed (n : nat) (c : Codec) :
  flushbits_rec (S (S n)) c = Return tt (flushed c).
Proof.
  change (flushbits_rec (S (S n))) with (flushbits_with (flushbits_rec (S n))).
  apply flushbits_with_flushed. intros c'. apply flushbits_rec_empty.
Qed.

Lemma flushbits_flushed (c : Codec) : flushbits c = Return tt (flushed c).
Proof. apply (flushbits_rec_flushed 0). Qed.

Lemma flushed_empty (c : Codec) : outgoing_bits c = [] -> flushed c = c.
Proof.
  intros H. unfold flushed. rewrite H.
  destruct c as [st nw nr inc out]. cbn in *. now subst.
Qed.

Lemma outgoing_bits_flushed (c : Codec) : outgoing_bits (flushed c) = [].
Proof.
  unfold flushed.
  now destruct (wrote_octets_fields (pack_bits (outgoing_bits c))
                  (set_outgoing_bits [] c)) as (-> & _).
Qed.

Lemma write_wrote (s : bytes) (c : Codec) :
  write s c = Return tt (wrote s (flushed c)).
Proof.
  unfold write, write_with, bind. now rewrite flushbits_flushed.
Qed.

Lemma pack_wrote (f : fmt) (args : list value) (s : bytes) (c : Codec) :
  struct_pack f args = Some s ->
  pack f args c = Return tt (wrote s (flushed c)).
Proof.
  intros H. unfold pack, pack_with. rewrite H. apply write_wrote.
Qed.

Lemma pack_error (f : fmt) (args : list value) (c : Codec) :
  struct_pack f args = None -> pack f args c = Raise struct_error c.
Proof.
  intros H. unfold pack, pack_with. now rewrite H.
Qed.

(** ** [read] and [unpack] *)

Lemma read_enough (n : Z) (data rest : bytes) (c : Codec) :
  remaining (stream c) = data ++ rest ->
  len data = n ->
  read n c = Return data (advanced (length data) c).
Proof.
  intros Hrem Hn. unfold read.
  rewrite StringIO_read_remaining by (subst n; apply len_nonneg).
  rewrite Hrem. subst n. unfold len. rewrite Nat2Z.id.
  rewrite take_app_length.
  destruct ((0 <? Z.of_nat (length data)) && (Z.of_nat (length data) =? 0)) eqn:E.
  - apply andb_prop in E as [E1 E2].
    apply Z.ltb_lt in E1. apply Z.eqb_eq in E2. lia.
  - reflexivity.
Qed.

Lemma remaining_advanced (data rest : bytes) (c : Codec) :
  remaining (stream c) = data ++ rest ->
  remaining (stream (advanced (length data) c)) = rest.
Proof.
  unfold remaining, advanced. cbn [stream set_nread set_stream buf pos].
  intros H. rewrite <- drop_drop, H.
  apply drop_app_length.
Qed.

Lemma unpack_enough (f : fmt) (data rest : bytes) (c : Codec) :
  remaining (stream c) = data ++ rest ->
  len data = calcsize f ->
  unpack f c
  = match struct_unpack f data with
    | None => Raise struct_error (advanced (length data) c)
    | Some [v] => Return v (advanced (length data) c)
    | Some values => Return (VTuple values) (advanced (length data) c)
    end.
Proof.
  intros Hrem Hn. unfold unpack, bind.
  rewrite (read_enough _ data rest) by assumption.
  destruct (struct_unpack f data) as [[|v [|w l]]|]; reflexivity.
Qed.

Lemma be_int_1 (a : ascii) : be_int [a] = ord a.
Proof. unfold be_int. simpl. reflexivity. Qed.

Lemma decode_octet_byte (a : ascii) (rest : bytes) (c : Codec) :
  remaining (stream c) = a :: rest ->
  decode_octet c = Return (VInt (ord a)) (advanced 1 c).
Proof.
  intros Hrem. unfold decode_octet, decode_short_short_uint.
  rewrite (unpack_enough fmt_B [a] rest) by (assumption || reflexivity).
  unfold struct_unpack. cbn [len length calcsize Z.eqb Z.of_nat int_code].
  simpl. now rewrite be_int_1.
Qed.

(** ** Bits in, bits out *)

(** [decode_bit] on an empty queue: one octet is read, its eight bits are
    queued and the first one is popped. *)
Lemma decode_bit_refill (a : ascii) (rest : bytes) (c : Codec) :
  incoming_bits c = [] ->
  remaining (stream c) = a :: rest ->
  decode_bit c
  = Return (hd false (unpack8 (ord a)))
      (set_incoming_bits (tl (unpack8 (ord a))) (advanced 1 c)).
Proof.
  intros Hq Hrem. unfold decode_bit.
  unfold bind at 1. unfold bind at 1. unfold get at 1.
  rewrite Hq. change (len [] =? 0) with true. cbv iota.
  unfold bind at 1. rewrite (decode_octet_byte a rest) by assumption.
  unfold bind at 1. cbn [int_of index ret].
  destruct c as [st nw nr inc out]. cbn in Hq. subst inc.
  reflexivity.
Qed.

(** [decode_bit] on a queue that holds a bit: it is popped, nothing is
    read. *)
Lemma decode_bit_pop (x : bool) (q : list bool) (c : Codec) :
  incoming_bits c = x :: q ->
  decode_bit c = Return x (set_incoming_bits q c).
Proof.
  intros Hq. unfold decode_bit.
  unfold bind at 1. unfold bind at 1. unfold get at 1.
  rewrite Hq.
  replace (len (x :: q) =? 0) with false
    by (symmetry; apply Z.eqb_neq; unfold len; cbn [length]; lia).
  cbn [ret]. unfold bind at 1, get. rewrite Hq.
  reflexivity.
Qed.

Lemma unpack8_length (z : Z) : length (unpack8 z) = 8%nat.
Proof. reflexivity. Qed.

(** [n] calls of [decode_bit] return the first [n] of the queued bits
    followed by the bits of the octets ahead, and read only the octets
    they need. *)
Lemma decode_bits_spec (n : nat) :
  forall (c : Codec) (bs rest : bytes),
    remaining (stream c) = bs ++ rest ->
    (n <= length (incoming_bits c) + 8 * length bs)%nat ->
    exists c',
      decode_bits n c
      = Return (take n (incoming_bits c ++ flat_map unpack8 (map ord bs))) c'
      /\ nread c'
         = nread c + Z.of_nat ((n - length (incoming_bits c) + 7) / 8)
      /\ outgoing_bits c' = outgoing_bits c
      /\ nwrote c' = nwrote c.
Proof.
  induction n as [|n IH]; intros c bs rest Hrem Hn.
  - exists c. repeat split. rewrite Nat.sub_0_l.
    change ((0 + 7) / 8)%nat with 0%nat. lia.
  - cbn [decode_bits]. unfold bind at 1.
    destruct (incoming_bits c) as [|x q] eqn:Hq.
    + destruct bs as [|a bs]; [simpl in Hn; lia|].
      rewrite (decode_bit_refill a (bs ++ rest)) by assumption.
      set (c1 := set_incoming_bits (tl (unpack8 (ord a))) (advanced 1 c)).
      destruct (IH c1 bs rest) as (c' & Hrun & Hnr & Hout & Hnw).
      { change (remaining (stream c1))
          with (remaining (stream (advanced (length [a]) c))).
        now apply (remaining_advanced [a]). }
      { change (length (incoming_bits c1)) with 7%nat.
        cbn [length] in Hn. lia. }
      exists c'. unfold bind. rewrite Hrun. cbn [ret].
      split; [|split; [|split]].
      * reflexivity.
      * rewrite Hnr. cbn [c1 incoming_bits set_incoming_bits nread advanced
                          set_nread set_stream length tl unpack8].
        change (length (tl (unpack8 (ord a)))) with 7%nat.
        assert (Hd : ((n - 7 + 7) / 8 = n / 8)%nat).
        { destruct (le_lt_dec 7 n).
          - f_equal. lia.
          - now rewrite !Nat.div_small by lia. }
        rewrite Hd.
        replace (S n - 0 + 7)%nat with (n + 1 * 8)%nat by lia.
        rewrite Nat.div_add by lia. lia.
      * rewrite Hout. reflexivity.
      * rewrite Hnw. reflexivity.
    + rewrite (decode_bit_pop x q) by assumption.
      set (c1 := set_incoming_bits q c).
      destruct (IH c1 bs rest) as (c' & Hrun & Hnr & Hout & Hnw).
      { exact Hrem. }
      { change (incoming_bits c1) with q. cbn [length] in Hn. lia. }
      exists c'. unfold bind. rewrite Hrun. cbn [ret].
      split; [|split; [|split]].
      * reflexivity.
      * rewrite Hnr. cbn [c1 incoming_bits set_incoming_bits nread length].
        reflexivity.
      * rewrite Hout. reflexivity.
      * rewrite Hnw. reflexivity.
Qed.

Lemma for_encode_bit (bits : list bool) (c : Codec) :
  for_ bits encode_bit c
  = Return tt (set_outgoing_bits (outgoing_bits c ++ bits) c).
Proof.
  revert c. induction bits as [|x bits IH]; intros c.
  - cbn. rewrite app_nil_r. now destruct c.
  - cbn [for_]. unfold bind at 1.
    assert (Hx : encode_bit x c
                 = Return tt (set_outgoing_bits (outgoing_bits c ++ [x]) c))
      by now destruct x.
    rewrite Hx, IH. cbn [outgoing_bits set_outgoing_bits].
    now rewrite <- app_assoc.
Qed.

Lemma map_ord_chr (l : list Z) :
  Forall (fun y => 0 <= y < 256) l -> map ord (map chr l) = l.
Proof.
  induction 1 as [|y l Hy _ IH]; [reflexivity|].
  cbn [map]. now rewrite ord_chr, IH.
Qed.

Lemma octets_cover (n : nat) : (n <= 8 * ((n + 7) / 8))%nat.
Proof.
  pose proof (Nat.div_mod_eq (n + 7) 8).
  pose proof (Nat.mod_upper_bound (n + 7) 8). lia.
Qed.

(** Encoding bits and flushing, from an empty queue. *)
Lemma encode_bits_flush (bits : list bool) (c : Codec) :
  outgoing_bits c = [] ->
  (for_ bits encode_bit ;; flush) c
  = Return tt (wrote_octets (pack_bits bits) c).
Proof.
  intros Hc. unfold bind. rewrite for_encode_bit, Hc.
  unfold flush. rewrite flushbits_flushed. unfold flushed.
  cbn [outgoing_bits set_outgoing_bits app].
  destruct c as [st nw nr inc out]. cbn in Hc. now subst out.
Qed.

(** Decoding as many bits as were packed gives them back. *)
Lemma decode_packed_bits (bits : list bool) (d : Codec) (rest : bytes) :
  incoming_bits d = [] ->
  remaining (stream d) = map chr (pack_bits bits) ++ rest ->
  exists d',
    decode_bits (length bits) d = Return bits d'
    /\ nread d' = nread d + Z.of_nat ((length bits + 7) / 8).
Proof.
  intros Hq Hrem.
  destruct (pack_bits_spec bits) as (Hlen & Hrange & Hbits).
  destruct (decode_bits_spec (length bits) d _ _ Hrem) as (d' & Hrun & Hnr & _).
  { rewrite Hq, length_map, Hlen. cbn [length]. apply octets_cover. }
  exists d'. split.
  - rewrite Hrun, Hq, map_ord_chr, Hbits by assumption.
    cbn [app]. now rewrite take_app_length.
  - rewrite Hnr, Hq. cbn [length]. now rewrite Nat.sub_0_r.
Qed.

Lemma write_octets_end (l : list Z) (st : StringIO) :
  pos st = length (buf st) ->
  fold_left (fun st y => StringIO_write [chr y] st) l st
  = {| buf := buf st ++ map chr l; pos := length (buf st ++ map chr l) |}.
Proof.
  revert st. induction l as [|y l IH]; intros st Hp.
  - cbn. rewrite app_nil_r, <- Hp. now destruct st.
  - cbn [fold_left map]. rewrite StringIO_write_end by assumption.
    rewrite IH by reflexivity. cbn [buf]. now rewrite <- app_assoc.
Qed.

(** C1: for every sequence of N booleans, [encode_bit] on each and then
    [flush] (on a codec with no bit pending) writes the ceil(N/8) octets of
    [pack_bits], zero octets when N = 0; and N calls of [decode_bit] on a
    codec that reads those octets (no bit pending, anything behind them)
    return the original sequence, in order. *)
Theorem bit_roundtrip (bits : list bool) (c d : Codec) (rest : bytes) :
  outgoing_bits c = [] ->
  incoming_bits d = [] ->
  remaining (stream d) = map chr (pack_bits bits) ++ rest ->
  exists c' d',
    (for_ bits encode_bit ;; flush) c = Return tt c'
    /\ stream c'
       = fold_left (fun st y => StringIO_write [chr y] st)
           (pack_bits bits) (stream c)
    /\ length (pack_bits bits) = ((length bits + 7) / 8)%nat
    /\ nwrote c' = nwrote c + Z.of_nat ((length bits + 7) / 8)
    /\ (bits = [] -> c' = c)
    /\ decode_bits (length bits) d = Return bits d'.
Proof.
  intros Hc Hd Hrem.
  destruct (decode_packed_bits bits d rest Hd Hrem) as (d' & Hrun & _).
  destruct (wrote_octets_fields (pack_bits bits) c) as (_ & _ & _ & Hnw & Hst).
  destruct (pack_bits_spec bits) as (Hlen & _).
  exists (wrote_octets (pack_bits bits) c), d'.
  split; [now apply encode_bits_flush|].
  split; [exact Hst|]. split; [exact Hlen|].
  split; [rewrite Hnw; unfold len; now rewrite Hlen|].
  split; [now intros ->|exact Hrun].
Qed.

Lemma bit_roundtrip_witness :
  exists c' d',
    (for_ [true; false; true] encode_bit ;; flush) (Codec_init StringIO_new)
    = Return tt c'
    /\ decode_bits 3 (Codec_init {| buf := [chr 5; chr 9]; pos := 0 |})
       = Return [true; false; true] d'.
Proof.
  destruct (bit_roundtrip [true; false; true] (Codec_init StringIO_new)
              (Codec_init {| buf := [chr 5; chr 9]; pos := 0 |}) [chr 9]
              eq_refl eq_refl eq_refl)
    as (c' & d' & H1 & _ & _ & _ & _ & H2).
  exists c', d'. split; [exact H1 | exact H2].
Defined.

(** The harness [test("bit", values)]: one codec on a fresh [StringIO]
    encodes, flushes, rewinds the stream and decodes. *)
Lemma test_bit (bits : list bool) :
  exists c1 c2,
    (for_ bits encode_bit ;; flush) (Codec_init StringIO_new) = Return tt c1
    /\ getvalue (stream c1) = map chr (pack_bits bits)
    /\ len (getvalue (stream c1)) = Z.of_nat ((length bits + 7) / 8)
    /\ decode_bits (length bits) (set_stream (reset (stream c1)) c1)
       = Return bits c2.
Proof.
  set (c0 := Codec_init StringIO_new).
  destruct (wrote_octets_fields (pack_bits bits) c0)
    as (_ & Hinc & _ & _ & Hst).
  rewrite write_octets_end in Hst by reflexivity.
  cbn [c0 Codec_init StringIO_new stream buf app] in Hst.
  destruct (pack_bits_spec bits) as (Hlen & _).
  destruct (decode_packed_bits bits
              (set_stream (reset (stream (wrote_octets (pack_bits bits) c0)))
                 (wrote_octets (pack_bits bits) c0)) [])
    as (c2 & Hrun & _).
  { cbn [incoming_bits set_stream]. exact Hinc. }
  { cbn [stream set_stream]. rewrite Hst. unfold remaining, reset.
    cbn [buf pos drop]. now rewrite app_nil_r. }
  exists (wrote_octets (pack_bits bits) c0), c2.
  split; [now apply encode_bits_flush|].
  split; [now rewrite Hst|].
  split; [|exact Hrun].
  rewrite Hst. unfold getvalue, len. cbn [buf].
  now rewrite length_map, Hlen.
Qed.

(** C9: [flushbits] empties the queue before it writes: the [flushbits]
    that [write] calls back for each packed octet only ever meets an empty
    queue (a stand-in that fails on any other does not change the result);
    the octets written hold every queued bit once, in order, then padding;
    after [write] the queue is empty; on an empty queue [flushbits] leaves
    the codec as it is. *)
Theorem flushbits_once (c : Codec) (s : bytes) :
  flushbits c = flushbits_with on_empty_queue c
  /\ flushbits c = Return tt (flushed c)
  /\ stream (flushed c)
     = fold_left (fun st y => StringIO_write [chr y] st)
         (pack_bits (outgoing_bits c)) (stream c)
  /\ nwrote (flushed c)
     = nwrote c + Z.of_nat ((length (outgoing_bits c) + 7) / 8)
  /\ flat_map unpack8 (pack_bits (outgoing_bits c))
     = outgoing_bits c
       ++ replicate (8 * ((length (outgoing_bits c) + 7) / 8)
                     - length (outgoing_bits c)) false
  /\ outgoing_bits (flushed c) = []
  /\ write s c = Return tt (wrote s (flushed c))
  /\ outgoing_bits (wrote s (flushed c)) = []
  /\ flushbits (set_outgoing_bits [] c) = Return tt (set_outgoing_bits [] c).
Proof.
  destruct (pack_bits_spec (outgoing_bits c)) as (Hlen & _ & Hbits).
  destruct (wrote_octets_fields (pack_bits (outgoing_bits c))
              (set_outgoing_bits [] c)) as (_ & _ & _ & Hnw & Hst).
  split.
  { rewrite flushbits_flushed. symmetry. apply flushbits_with_flushed.
    intros c' Hc'. unfold on_empty_queue. now rewrite Hc'. }
  split; [apply flushbits_flushed|].
  split; [exact Hst|].
  split; [unfold flushed; rewrite Hnw; unfold len; now rewrite Hlen|].
  split; [exact Hbits|].
  split; [apply outgoing_bits_flushed|].
  split; [apply write_wrote|].
  split; [apply outgoing_bits_flushed|].
  rewrite flushbits_flushed. now rewrite flushed_empty.
Qed.

(** ** End of stream *)

Lemma advanced_0 (c : Codec) : advanced 0 c = c.
Proof.
  destruct c as [[bf p] nw nr inc out]. unfold advanced.
  cbn. now rewrite Nat.add_0_r, Z.add_0_r.
Qed.

(** [read] in full: the bytes at hand, up to [n] of them; [EOF] exactly
    when some were asked for and none is left. *)
Lemma read_spec (n : Z) (c : Codec) :
  0 <= n ->
  let data := take (Z.to_nat n) (remaining (stream c)) in
  read n c
  = if (0 <? n) && (len data =? 0) then Raise EOF c
    else Return data (advanced (length data) c).
Proof.
  intros Hn data. unfold read.
  rewrite StringIO_read_remaining by assumption. fold data.
  destruct ((0 <? n) && (len data =? 0)) eqn:E; [|reflexivity].
  apply andb_prop in E as [_ E]. apply Z.eqb_eq in E.
  assert (Hd : length data = 0%nat) by (unfold len in E; lia).
  rewrite Hd. f_equal.
  destruct c as [[bf p] nw nr inc out]. unfold set_stream. cbn.
  now rewrite Nat.add_0_r.
Qed.

Lemma read_eof (n : Z) (c : Codec) :
  0 < n -> remaining (stream c) = [] -> read n c = Raise EOF c.
Proof.
  intros Hn Hrem. rewrite read_spec by lia. cbv zeta.
  rewrite Hrem, take_nil.
  now replace (0 <? n) with true by (symmetry; apply Z.ltb_lt; lia).
Qed.

Lemma read_zero (c : Codec) : read 0 c = Return [] c.
Proof.
  rewrite read_spec by lia. cbv zeta. cbn [Z.to_nat take Z.ltb Z.compare andb].
  cbn [length]. now rewrite advanced_0.
Qed.

(** A short read: fewer bytes than asked for, but not none. *)
Lemma read_short (n : Z) (c : Codec) :
  (0 < length (remaining (stream c)))%nat ->
  len (remaining (stream c)) < n ->
  read n c
  = Return (remaining (stream c))
      (advanced (length (remaining (stream c))) c).
Proof.
  intros Hpos Hlt. unfold len in Hlt.
  rewrite read_spec by lia. cbv zeta.
  rewrite take_ge by lia.
  replace (len (remaining (stream c)) =? 0) with false
    by (symmetry; apply Z.eqb_neq; unfold len; lia).
  now rewrite andb_false_r.
Qed.

Lemma calcsize_pos (f : fmt) : 0 < calcsize f.
Proof. destruct f; reflexivity. Qed.

Lemma unpack_eof (f : fmt) (c : Codec) :
  remaining (stream c) = [] -> unpack f c = Raise EOF c.
Proof.
  intros Hrem. unfold unpack, bind.
  now rewrite read_eof by (apply calcsize_pos || assumption).
Qed.

(** With some bytes left but not enough, [unpack] does not raise [EOF]:
    [struct.unpack] rejects the short string. *)
Lemma unpack_short (f : fmt) (c : Codec) :
  (0 < length (remaining (stream c)))%nat ->
  len (remaining (stream c)) < calcsize f ->
  unpack f c
  = Raise struct_error (advanced (length (remaining (stream c))) c).
Proof.
  intros Hpos Hlt. unfold unpack, bind.
  rewrite read_short by assumption.
  unfold struct_unpack.
  now replace (len (remaining (stream c)) =? calcsize f) with false
    by (symmetry; apply Z.eqb_neq; lia).
Qed.

(** ** [field_value] *)

Lemma tags_length : length tags = 18%nat.
Proof. reflexivity. Qed.

Lemma tags_NoDup : NoDup tags.
Proof. compute_done. Qed.

(** [field_value] begins with [read(1)]. *)
Lemma field_value_eof (fuel : nat) (c : Codec) :
  remaining (stream c) = [] -> field_value (S fuel) c = Raise EOF c.
Proof.
  intros Hrem. cbn [field_value]. unfold field_value_with, bind.
  now rewrite read_eof by (lia || assumption).
Qed.

Lemma tag_not_known (type : bytes) (t : string) :
  type ∉ tags -> b t ∈ tags -> bool_decide (type = b t) = false.
Proof.
  intros Hn Hin. apply bool_decide_eq_false. intros ->. now apply Hn.
Qed.

Ltac known_tag := compute_done.

(** C6: [field_value] reads one byte, the tag, and for every byte that is
    not one of the eighteen tags it raises the [ValueError] for an unknown
    type, which carries that byte; the codec has then read the tag and
    nothing else, and no value is returned. *)
Theorem field_value_unknown_tag
    (fuel : nat) (a : ascii) (rest : bytes) (c : Codec) :
  remaining (stream c) = a :: rest ->
  [a] ∉ tags ->
  field_value (S fuel) c
  = Raise (ValueError (Unkown_value_type [a])) (advanced 1 c)
  /\ nread (advanced 1 c) = nread c + 1
  /\ remaining (stream (advanced 1 c)) = rest
  /\ length tags = 18%nat.
Proof.
  intros Hrem Hn.
  split; [|split; [reflexivity|split; [|reflexivity]]].
  - cbn [field_value]. unfold field_value_with, bind.
    rewrite (read_enough 1 [a] rest) by (assumption || reflexivity).
    cbn [length].
    rewrite !(tag_not_known [a]) by (assumption || known_tag).
    reflexivity.
  - now apply (remaining_advanced [a]).
Qed.

Lemma field_value_unknown_tag_witness :
  field_value 1 (Codec_init {| buf := b "x!"; pos := 0 |})
  = Raise (ValueError (Unkown_value_type (b "x")))
      (advanced 1 (Codec_init {| buf := b "x!"; pos := 0 |})).
Proof.
  apply (field_value_unknown_tag 0 "x"%char (b "!")).
  - reflexivity.
  - compute_done.
Defined.

(** [decode_none] unpacks ["!x"], whose size is one byte: it reads a byte
    and returns the empty tuple. *)
Lemma decode_none_byte (a : ascii) (rest : bytes) (c : Codec) :
  remaining (stream c) = a :: rest ->
  decode_none c = Return (VTuple []) (advanced 1 c).
Proof.
  intros Hrem. unfold decode_none.
  now rewrite (unpack_enough fmt_x [a] rest) by (assumption || reflexivity).
Qed.

Lemma field_value_void (fuel : nat) (a : ascii) (rest : bytes) (c : Codec) :
  remaining (stream c) = "V"%char :: a :: rest ->
  field_value (S fuel) c = Return (VTuple []) (advanced 1 (advanced 1 c)).
Proof.
  intros Hrem. cbn [field_value]. unfold field_value_with, bind.
  rewrite (read_enough 1 ["V"%char] (a :: rest)) by (assumption || reflexivity).
  cbn [length]. cbn [bool_decide decide_rel].
  replace (bool_decide (["V"%char] = b "V")) with true by reflexivity.
  repeat match goal with
         | |- context [bool_decide (["V"%char] = b ?t)] =>
             replace (bool_decide (["V"%char] = b t)) with false by reflexivity
         end.
  apply (decode_none_byte a rest).
  now apply (remaining_advanced ["V"%char]).
Qed.

(** C8 (the code departs from the claim): after the tag [V], [field_value]
    reads one more byte.  On ["V"] followed by ["I"] it consumes both bytes
    and returns the empty tuple; on ["V"] alone, the last byte of a stream,
    it raises [EOF]. *)
Theorem field_value_void_reads_a_byte :
  let c := Codec_init {| buf := b "VI"; pos := 0 |} in
  let c1 := Codec_init {| buf := b "V"; pos := 0 |} in
  field_value 1 c = Return (VTuple []) (advanced 2 c)
  /\ nread (advanced 2 c) = 2
  /\ remaining (stream (advanced 2 c)) = []
  /\ field_value 1 c1 = Raise EOF (advanced 1 c1).
Proof. repeat split. Qed.

(** ** Long strings *)

Lemma in_range_unsigned (w : nat) (z : Z) :
  in_range false w z = true <-> 0 <= z < 256 ^ Z.of_nat w.
Proof.
  unfold in_range.
  replace (2 ^ (8 * Z.of_nat w)) with (256 ^ Z.of_nat w)
    by (change 256 with (2 ^ 8); rewrite <- Z.pow_mul_r by lia; reflexivity).
  rewrite andb_true_iff, Z.leb_le, Z.ltb_lt. reflexivity.
Qed.

(** [encode_long_string] on a string shorter than 256 bytes: the length goes
    out on one byte. *)
Lemma encode_long_string_short (s : bytes) (c : Codec) :
  len s < 256 ->
  encode_long_string s c
  = Return tt (wrote s (wrote [chr (len s)] (flushed c))).
Proof.
  intros Hs. unfold encode_long_string, encode_short_short_uint, bind.
  rewrite (pack_wrote _ _ [chr (len s)]).
  - rewrite write_wrote. do 2 f_equal. apply flushed_empty.
    apply outgoing_bits_flushed.
  - cbn [struct_pack int_code index].
    replace (in_range false 1 (len s)) with true
      by (symmetry; apply in_range_unsigned; pose proof (len_nonneg s);
          change (256 ^ Z.of_nat 1) with 256; lia).
    now rewrite be_bytes_1 by (pose proof (len_nonneg s); lia).
Qed.

(** ... and on a longer one [struct.pack("!B", size)] raises. *)
Lemma encode_long_string_long (s : bytes) (c : Codec) :
  256 <= len s ->
  encode_long_string s c = Raise struct_error c.
Proof.
  intros Hs. unfold encode_long_string, encode_short_short_uint, bind.
  rewrite pack_error; [reflexivity|].
  cbn [struct_pack int_code index].
  destruct (in_range false 1 (len s)) eqn:E; [|reflexivity].
  apply in_range_unsigned in E. change (256 ^ Z.of_nat 1) with 256 in E. lia.
Qed.

(** C3 (the code departs from the claim): [encode_long_string] writes the
    length on one byte, through [encode_short_short_uint].  For ["a"] it
    writes the two bytes [01 61], where [encode_longstr] writes
    [00 00 00 01 61]; [decode_long_string], which reads a four-byte length,
    does not read back what [encode_long_string] wrote. *)
Theorem encode_long_string_one_byte_length :
  let c := Codec_init StringIO_new in
  let rewind c := set_stream (reset (stream c)) c in
  encode_long_string (b "a") c
  = Return tt (wrote (b "a") (wrote [chr 1] c))
  /\ getvalue (stream (wrote (b "a") (wrote [chr 1] c))) = [chr 1; "a"%char]
  /\ encode_longstr (b "a") c
     = Return tt (wrote (b "a") (wrote [chr 0; chr 0; chr 0; chr 1] c))
  /\ decode_long_string (rewind (wrote (b "a") (wrote [chr 1] c)))
     = Raise struct_error (advanced 2 (rewind (wrote (b "a") (wrote [chr 1] c))))
  /\ decode_long_string
       (rewind (wrote (b "a") (wrote [chr 0; chr 0; chr 0; chr 1] c)))
     = Return (b "a")
         (advanced 5 (rewind (wrote (b "a") (wrote [chr 0; chr 0; chr 0; chr 1] c)))).
Proof. repeat split. Qed.

(** ** Which decode operations raise [EOF], and when *)

Lemma decode_bit_eof (c : Codec) :
  incoming_bits c = [] ->
  remaining (stream c) = [] ->
  decode_bit c = Raise EOF c.
Proof.
  intros Hq Hrem. unfold decode_bit.
  unfold bind at 1. unfold bind at 1. unfold get at 1.
  rewrite Hq. change (len [] =? 0) with true. cbv iota.
  unfold bind at 1. unfold decode_octet, decode_short_short_uint.
  now rewrite unpack_eof by assumption.
Qed.

Lemma decode_eof (fuel : nat) (type : string) (c : Codec) :
  type ∈ decode_names ->
  incoming_bits c = [] ->
  remaining (stream c) = [] ->
  decode fuel type c = Raise EOF c.
Proof.
  intros Hin Hq Hrem. unfold decode_names in Hin.
  apply elem_of_cons in Hin as [-> | Hin].
  { cbn [decode]. unfold bind. now rewrite decode_bit_eof. }
  repeat (apply elem_of_cons in Hin as [-> | Hin]);
    [..| now apply elem_of_nil in Hin];
    cbn [decode];
    unfold decode_boolean, decode_short_short_int, decode_octet,
      decode_short_int, decode_short, decode_short_uint, decode_long_int,
      decode_long, decode_long_long_int, decode_longlong, decode_timestamp,
      decode_long_long_uint, decode_float, decode_double, decode_none,
      decode_decimal_value, decode_shortstr, decode_short_string,
      decode_long_string, decode_longstr, dec_str, decode_table,
      decode_field_array, decode_field_table, decode_field_array_with,
      decode_field_table_with, decode_long_int, decode_long_uint,
      decode_short_short_uint;
    unfold bind; now rewrite unpack_eof by assumption.
Qed.

(** C5, as stated, fails: with two bytes left, [decode_long_uint] (four
    bytes) does not raise [EOF]; the short read goes to [struct.unpack],
    which raises [struct.error]. *)
Lemma short_read_is_not_EOF :
  let c := Codec_init {| buf := b "ab"; pos := 0 |} in
  len (remaining (stream c)) < calcsize fmt_L
  /\ decode_long_uint c = Raise struct_error (advanced 2 c)
  /\ ~ (exists c', decode_long_uint c = Raise EOF c').
Proof.
  cbv zeta. split; [reflexivity|]. split; [reflexivity|].
  intros [c' H]. discriminate H.
Qed.

(** C5, amended: a decode operation raises [EOF] when it asks for bytes and
    the stream has none left; this holds for [read], for [unpack] at every
    format and for every operation of [decode] (for ["bit"], when no bit is
    queued).  A short read that returns some bytes is not [EOF]: [read]
    returns them, and [unpack] then raises [struct.error].  A read of zero
    bytes returns the empty string and raises nothing. *)
Theorem eof_when_exhausted (c : Codec) :
  (forall n, 0 < n -> remaining (stream c) = [] -> read n c = Raise EOF c)
  /\ (forall f, remaining (stream c) = [] -> unpack f c = Raise EOF c)
  /\ (forall fuel type,
        type ∈ decode_names -> incoming_bits c = [] ->
        remaining (stream c) = [] ->
        decode fuel type c = Raise EOF c)
  /\ (forall n,
        (0 < length (remaining (stream c)))%nat ->
        len (remaining (stream c)) < n ->
        read n c = Return (remaining (stream c))
                     (advanced (length (remaining (stream c))) c))
  /\ (forall f,
        (0 < length (remaining (stream c)))%nat ->
        len (remaining (stream c)) < calcsize f ->
        unpack f c
        = Raise struct_error (advanced (length (remaining (stream c))) c))
  /\ read 0 c = Return [] c.
Proof.
  split; [intros; now apply read_eof|].
  split; [intros; now apply unpack_eof|].
  split; [intros; now apply decode_eof|].
  split; [intros; now apply read_short|].
  split; [intros; now apply unpack_short|].
  apply read_zero.
Qed.

Lemma eof_when_exhausted_witness :
  let c := Codec_init StringIO_new in
  let d := Codec_init {| buf := b "ab"; pos := 0 |} in
  read 4 c = Raise EOF c
  /\ unpack fmt_L c = Raise EOF c
  /\ decode 0 "field_table" c = Raise EOF c
  /\ read 4 d = Return (b "ab") (advanced 2 d)
  /\ unpack fmt_L d = Raise struct_error (advanced 2 d).
Proof.
  cbv zeta.
  destruct (eof_when_exhausted (Codec_init StringIO_new))
    as (H1 & H2 & H3 & _).
  destruct (eof_when_exhausted (Codec_init {| buf := b "ab"; pos := 0 |}))
    as (_ & _ & _ & H4 & H5 & _).
  split; [apply H1; [lia | reflexivity]|].
  split; [apply H2; reflexivity|].
  split; [apply H3; [compute_done | reflexivity | reflexivity]|].
  split; [apply (H4 4); [cbn; lia | reflexivity]|].
  apply (H5 fmt_L); [cbn; lia | reflexivity].
Defined.

(** ** Decimal values *)

Lemma outgoing_bits_wrote (s : bytes) (c : Codec) :
  outgoing_bits (wrote s c) = outgoing_bits c.
Proof. reflexivity. Qed.


Lemma pack_wrote_empty (f : fmt) (args : list value) (s : bytes) (c : Codec) :
  outgoing_bits c = [] ->
  struct_pack f args = Some s ->
  pack f args c = Return tt (wrote s c).
Proof.
  intros Hc Hs. rewrite (pack_wrote f args s) by assumption.
  now rewrite flushed_empty.
Qed.

Lemma in_range_signed (w : nat) (z : Z) :
  in_range true w z = true
  <-> - 2 ^ (8 * Z.of_nat w - 1) <= z < 2 ^ (8 * Z.of_nat w - 1).
Proof.
  unfold in_range. rewrite andb_true_iff, Z.leb_le, Z.ltb_lt. reflexivity.
Qed.











(** ** Termination of the decoders *)

Lemma nonincr_ret {A} (a : A) : nonincr (ret a).
Proof. intros c a' c' H. injection H as _ <-. lia. Qed.

Lemma nonincr_raise {A} (e : exn) : nonincr (@raise A e).
Proof. intros c a c' H. discriminate H. Qed.

Lemma nonincr_bind {A B} (m : M A) (k : A -> M B) :
  nonincr m -> (forall a, nonincr (k a)) -> nonincr (bind m k).
Proof.
  intros Hm Hk c y c' H. unfold bind in H.
  destruct (m c) as [a c1|e c1|] eqn:E; try discriminate.
  apply Hm in E. apply Hk in H. lia.
Qed.

Lemma total_ret {A} (a : A) : total (ret a).
Proof. intros c H. discriminate H. Qed.

Lemma total_raise {A} (e : exn) : total (@raise A e).
Proof. intros c H. discriminate H. Qed.

Lemma total_bind {A B} (m : M A) (k : A -> M B) :
  total m -> (forall a, total (k a)) -> total (bind m k).
Proof.
  intros Hm Hk c. unfold bind.
  destruct (m c) as [a c1|e c1|] eqn:E; [apply Hk | discriminate | now apply Hm in E].
Qed.

Lemma avail_advanced (k : nat) (c : Codec) :
  avail (advanced k c) = (avail c - k)%nat.
Proof.
  unfold avail, remaining, advanced. cbn [stream set_nread set_stream buf pos].
  rewrite !length_drop. lia.
Qed.

(** [read] returns bytes that were at hand. *)
Lemma read_avail (n : Z) (c : Codec) (data : bytes) (c' : Codec) :
  read n c = Return data c' ->
  (avail c' + length data = avail c)%nat
  /\ nread c' = nread c + len data
  /\ (0 < n -> (0 < length data)%nat).
Proof.
  unfold read, StringIO_read. intros H.
  set (d := if n <? 0 then drop (pos (stream c)) (buf (stream c))
            else take (Z.to_nat n) (drop (pos (stream c)) (buf (stream c)))) in *.
  assert (Hd : (length d <= length (drop (pos (stream c)) (buf (stream c))))%nat).
  { unfold d. destruct (n <? 0); [lia | rewrite length_take; lia]. }
  destruct ((0 <? n) && (len d =? 0)) eqn:E; [discriminate|].
  injection H as <- <-.
  unfold avail, remaining. cbn [stream set_nread set_stream buf pos nread].
  clearbody d. rewrite !length_drop. rewrite length_drop in Hd.
  split; [lia|]. split; [reflexivity|].
  intros Hn. apply andb_false_iff in E as [E|E].
  - apply Z.ltb_ge in E. lia.
  - apply Z.eqb_neq in E. unfold len in E. lia.
Qed.

Lemma nonincr_read (n : Z) : nonincr (read n).
Proof. intros c a c' H. apply read_avail in H. lia. Qed.

Lemma total_read (n : Z) : total (read n).
Proof.
  intros c. unfold read. destruct (StringIO_read n (stream c)) as [data st].
  destruct ((0 <? n) && (len data =? 0)); discriminate.
Qed.

Lemma nonincr_unpack (f : fmt) : nonincr (unpack f).
Proof.
  unfold unpack. apply nonincr_bind; [apply nonincr_read|].
  intros data. destruct (struct_unpack f data) as [[|v [|w l]]|];
    first [apply nonincr_ret | apply nonincr_raise].
Qed.

Lemma total_unpack (f : fmt) : total (unpack f).
Proof.
  unfold unpack. apply total_bind; [apply total_read|].
  intros data. destruct (struct_unpack f data) as [[|v [|w l]]|];
    first [apply total_ret | apply total_raise].
Qed.

Lemma nonincr_int_of (v : value) : nonincr (int_of v).
Proof.
  unfold int_of. destruct (index v); [apply nonincr_ret | apply nonincr_raise].
Qed.

Lemma total_int_of (v : value) : total (int_of v).
Proof.
  unfold int_of. destruct (index v); [apply total_ret | apply total_raise].
Qed.

Lemma nonincr_get {A} (field : Codec -> A) : nonincr (get field).
Proof. intros c a c' H. injection H as _ <-. lia. Qed.

Lemma total_get {A} (field : Codec -> A) : total (get field).
Proof. intros c H. discriminate H. Qed.

Create HintDb codec discriminated.
#[local] Hint Resolve nonincr_ret nonincr_raise nonincr_read nonincr_unpack
  nonincr_int_of nonincr_get total_ret total_raise total_read total_unpack
  total_int_of total_get : codec.

Ltac monadic :=
  repeat first
    [ solve [auto with codec]
    | apply nonincr_bind; [|intros ?]
    | apply total_bind; [|intros ?] ].

Lemma nonincr_decode_decimal_value : nonincr decode_decimal_value.
Proof.
  unfold decode_decimal_value, decode_short_short_uint, decode_long_uint.
  monadic.
Qed.

Lemma total_decode_decimal_value : total decode_decimal_value.
Proof.
  unfold decode_decimal_value, decode_short_short_uint, decode_long_uint.
  monadic.
Qed.

Lemma nonincr_dec_str (f : fmt) : nonincr (dec_str f).
Proof. unfold dec_str. monadic. Qed.

Lemma total_dec_str (f : fmt) : total (dec_str f).
Proof. unfold dec_str. monadic. Qed.

#[local] Hint Resolve nonincr_decode_decimal_value total_decode_decimal_value
  nonincr_dec_str total_dec_str : codec.

Lemma bind_consumes {A B} (m : M A) (k : A -> M B) :
  (forall c a c', m c = Return a c' -> (avail c' < avail c)%nat) ->
  (forall a, nonincr (k a)) ->
  forall c y c', bind m k c = Return y c' -> (avail c' < avail c)%nat.
Proof.
  intros Hm Hk c y c' H. unfold bind in H.
  destruct (m c) as [a c1|e c1|] eqn:E; try discriminate.
  apply Hm in E. apply Hk in H. lia.
Qed.

Lemma bind_defined {A B} (m : M A) (k : A -> M B) (c : Codec) :
  m c <> OutOfFuel ->
  (forall a c', m c = Return a c' -> k a c' <> OutOfFuel) ->
  bind m k c <> OutOfFuel.
Proof.
  intros Hm Hk. unfold bind.
  destruct (m c) as [a c1|e c1|] eqn:E; [now apply Hk | discriminate | congruence].
Qed.

Ltac unfold_decoders :=
  unfold decode_boolean, decode_short_short_int, decode_octet,
    decode_short_int, decode_short, decode_short_uint,
    decode_long, decode_long_long_int, decode_longlong, decode_timestamp,
    decode_long_long_uint, decode_float, decode_double, decode_none,
    decode_shortstr, decode_short_string, decode_long_string, decode_longstr,
    decode_long_int, decode_long_uint, decode_short_short_uint.

Section Loops.
Variable fv : M value.
Hypothesis fv_nonincr : nonincr fv.

Lemma nonincr_array_loop (n : nat) (start size : Z) (result : list value) :
  nonincr (array_loop fv n start size result).
Proof.
  revert result. induction n as [|n IH]; intros result.
  - intros c a c' H. discriminate H.
  - cbn [array_loop]. apply nonincr_bind; [auto with codec|].
    intros nr. destruct (nr - start <? size); [|auto with codec].
    apply nonincr_bind; [assumption | intros v; apply IH].
Qed.

Lemma nonincr_table_loop (n : nat) (start size : Z)
    (result : gmap bytes value) :
  nonincr (table_loop fv n start size result).
Proof.
  revert result. induction n as [|n IH]; intros result.
  - intros c a c' H. discriminate H.
  - cbn [table_loop]. apply nonincr_bind; [auto with codec|].
    intros nr. destruct (nr - start <? size); [|auto with codec].
    apply nonincr_bind; [unfold_decoders; monadic|]. intros key.
    apply nonincr_bind; [assumption | intros v; apply IH].
Qed.

Lemma nonincr_decode_field_array_with (n : nat) :
  nonincr (decode_field_array_with fv n).
Proof.
  unfold decode_field_array_with. unfold_decoders.
  apply nonincr_bind; [auto with codec | intros v].
  apply nonincr_bind; [auto with codec | intros size].
  apply nonincr_bind; [auto with codec | intros start].
  apply nonincr_bind; [apply nonincr_array_loop | intros result].
  apply nonincr_bind; [auto with codec | intros nr].
  destruct (negb (nr - start =? size)); auto with codec.
Qed.

Lemma nonincr_decode_field_table_with (n : nat) :
  nonincr (decode_field_table_with fv n).
Proof.
  unfold decode_field_table_with. unfold_decoders.
  apply nonincr_bind; [auto with codec | intros v].
  apply nonincr_bind; [auto with codec | intros size].
  apply nonincr_bind; [auto with codec | intros start].
  apply nonincr_table_loop.
Qed.

(** [field_value] consumes its tag: when it returns, the stream is at
    least one byte shorter. *)
Lemma field_value_with_consumes (n : nat) (c : Codec) (v : value) (c' : Codec) :
  field_value_with fv n c = Return v c' -> (avail c' < avail c)%nat.
Proof.
  unfold field_value_with. apply bind_consumes.
  - intros c0 data c1 H. apply read_avail in H as (H & _ & Hpos). lia.
  - intros type.
    repeat match goal with
           | |- nonincr (if ?x then _ else _) => destruct x
           end;
      unfold_decoders;
      first [ solve [monadic]
            | apply nonincr_bind;
              [ apply nonincr_decode_field_array_with
                || apply nonincr_decode_field_table_with
              | intros ?; apply nonincr_ret ] ].
Qed.

(** The loops do not exhaust a budget that exceeds the bytes at hand,
    provided [field_value] does not. *)
Hypothesis fv_consumes :
  forall c v c', fv c = Return v c' -> (avail c' < avail c)%nat.

Lemma array_loop_defined (N n : nat) (start size : Z) (result : list value)
    (c : Codec) :
  (forall c', (avail c' <= N)%nat -> fv c' <> OutOfFuel) ->
  (avail c <= N)%nat ->
  (avail c < n)%nat ->
  array_loop fv n start size result c <> OutOfFuel.
Proof.
  intros Hfv. revert result c.
  induction n as [|n IH]; intros result c HN Hn; [lia|].
  cbn [array_loop]. unfold bind at 1, get.
  destruct (nread c - start <? size); [|discriminate].
  apply bind_defined; [now apply Hfv|].
  intros v c' Hv. apply fv_consumes in Hv. apply IH; lia.
Qed.

Lemma table_loop_defined (N n : nat) (start size : Z)
    (result : gmap bytes value) (c : Codec) :
  (forall c', (avail c' <= N)%nat -> fv c' <> OutOfFuel) ->
  (avail c <= N)%nat ->
  (avail c < n)%nat ->
  table_loop fv n start size result c <> OutOfFuel.
Proof.
  intros Hfv. revert result c.
  induction n as [|n IH]; intros result c HN Hn; [lia|].
  cbn [table_loop]. unfold bind at 1, get.
  destruct (nread c - start <? size); [|discriminate].
  assert (Hk : nonincr decode_short_string /\ total decode_short_string)
    by (split; unfold_decoders; monadic).
  destruct Hk as [Hk1 Hk2].
  apply bind_defined; [apply Hk2|].
  intros key c1 Hkey. apply Hk1 in Hkey.
  apply bind_defined; [apply Hfv; lia|].
  intros v c' Hv. apply fv_consumes in Hv. apply IH; lia.
Qed.

Lemma decode_field_array_with_defined (N n : nat) (c : Codec) :
  (forall c', (avail c' <= N)%nat -> fv c' <> OutOfFuel) ->
  (avail c <= N)%nat ->
  (avail c < n)%nat ->
  decode_field_array_with fv n c <> OutOfFuel.
Proof.
  intros Hfv HN Hn. unfold decode_field_array_with.
  apply bind_defined; [unfold_decoders; apply total_unpack|].
  intros v c1 H1. apply (nonincr_unpack fmt_l) in H1.
  apply bind_defined; [apply total_int_of|].
  intros size c2 H2. apply nonincr_int_of in H2.
  apply bind_defined; [apply total_get|].
  intros start c3 H3. apply nonincr_get in H3.
  apply bind_defined; [apply (array_loop_defined N); (assumption || lia)|].
  intros result c4 _.
  apply bind_defined; [apply total_get|].
  intros nr c5 _. destruct (negb (nr - start =? size)); discriminate.
Qed.

Lemma decode_field_table_with_defined (N n : nat) (c : Codec) :
  (forall c', (avail c' <= N)%nat -> fv c' <> OutOfFuel) ->
  (avail c <= N)%nat ->
  (avail c < n)%nat ->
  decode_field_table_with fv n c <> OutOfFuel.
Proof.
  intros Hfv HN Hn. unfold decode_field_table_with.
  apply bind_defined; [unfold_decoders; apply total_unpack|].
  intros v c1 H1. apply (nonincr_unpack fmt_L) in H1.
  apply bind_defined; [apply total_int_of|].
  intros size c2 H2. apply nonincr_int_of in H2.
  apply bind_defined; [apply total_get|].
  intros start c3 H3. apply nonincr_get in H3.
  apply (table_loop_defined N); (assumption || lia).
Qed.
End Loops.

Lemma field_value_consumes (fuel : nat) (c : Codec) (v : value) (c' : Codec) :
  field_value fuel c = Return v c' -> (avail c' < avail c)%nat.
Proof.
  revert c v c'. induction fuel as [|fuel IH]; intros c v c' H.
  - discriminate H.
  - cbn [field_value] in H.
    apply field_value_with_consumes in H; [assumption|].
    intros c0 v0 c0' H0. apply IH in H0. lia.
Qed.

Lemma nonincr_field_value (fuel : nat) : nonincr (field_value fuel).
Proof. intros c v c' H. apply field_value_consumes in H. lia. Qed.

(** [field_value] never exhausts a budget larger than the number of bytes
    left in the stream. *)
Lemma field_value_defined (fuel : nat) (c : Codec) :
  (avail c < fuel)%nat -> field_value fuel c <> OutOfFuel.
Proof.
  revert c. induction fuel as [|fuel IH]; intros c Hc; [lia|].
  cbn [field_value]. unfold field_value_with.
  apply bind_defined; [apply total_read|].
  intros type c1 H1. apply read_avail in H1 as (H1 & _ & Hpos).
  specialize (Hpos eq_refl).
  assert (Hc1 : (avail c1 < fuel)%nat) by lia.
  assert (Hfv : forall c', (avail c' <= avail c1)%nat ->
                           field_value fuel c' <> OutOfFuel)
    by (intros c' Hc'; apply IH; lia).
  repeat match goal with
         | |- (if ?x then _ else _) _ <> _ => destruct x
         end;
    unfold_decoders;
    try match goal with
        | |- ?m ?c0 <> OutOfFuel =>
            let Ht := fresh in
            assert (Ht : total m) by (solve [monadic]); apply Ht
        end.
  - apply bind_defined; [|discriminate].
    apply (decode_field_array_with_defined _ (field_value_consumes fuel) (avail c1));
      (assumption || lia).
  - apply bind_defined; [|discriminate].
    apply (decode_field_table_with_defined _ (field_value_consumes fuel) (avail c1));
      (assumption || lia).
Qed.

(** ** The budget does not matter *)

Lemma refines_refl {A} (m : M A) : refines m m.
Proof. intros c. now right. Qed.

Lemma refines_bind {A B} (m1 m2 : M A) (k1 k2 : A -> M B) :
  refines m1 m2 -> (forall a, refines (k1 a) (k2 a)) ->
  refines (bind m1 k1) (bind m2 k2).
Proof.
  intros Hm Hk c. unfold bind.
  destruct (Hm c) as [->| <-]; [now left|].
  destruct (m1 c) as [a c1|e c1|]; [apply Hk | now right | now left].
Qed.

Section Budget.
Variables fv1 fv2 : M value.
Hypothesis fv_refines : refines fv1 fv2.

Lemma refines_array_loop (n1 n2 : nat) (start size : Z) (result : list value) :
  (n1 <= n2)%nat ->
  refines (array_loop fv1 n1 start size result)
          (array_loop fv2 n2 start size result).
Proof.
  revert n2 result. induction n1 as [|n1 IH]; intros n2 result Hn.
  - intros c. now left.
  - destruct n2 as [|n2]; [lia|]. cbn [array_loop].
    apply refines_bind; [apply refines_refl|]. intros nr.
    destruct (nr - start <? size); [|apply refines_refl].
    apply refines_bind; [assumption|]. intros v. apply IH. lia.
Qed.

Lemma refines_table_loop (n1 n2 : nat) (start size : Z)
    (result : gmap bytes value) :
  (n1 <= n2)%nat ->
  refines (table_loop fv1 n1 start size result)
          (table_loop fv2 n2 start size result).
Proof.
  revert n2 result. induction n1 as [|n1 IH]; intros n2 result Hn.
  - intros c. now left.
  - destruct n2 as [|n2]; [lia|]. cbn [table_loop].
    apply refines_bind; [apply refines_refl|]. intros nr.
    destruct (nr - start <? size); [|apply refines_refl].
    apply refines_bind; [apply refines_refl|]. intros key.
    apply refines_bind; [assumption|]. intros v. apply IH. lia.
Qed.

Lemma refines_decode_field_array_with (n1 n2 : nat) :
  (n1 <= n2)%nat ->
  refines (decode_field_array_with fv1 n1) (decode_field_array_with fv2 n2).
Proof.
  intros Hn. unfold decode_field_array_with.
  repeat (apply refines_bind; [apply refines_refl|]; intros ?).
  apply refines_bind; [now apply refines_array_loop|]. intros result.
  apply refines_refl.
Qed.

Lemma refines_decode_field_table_with (n1 n2 : nat) :
  (n1 <= n2)%nat ->
  refines (decode_field_table_with fv1 n1) (decode_field_table_with fv2 n2).
Proof.
  intros Hn. unfold decode_field_table_with.
  repeat (apply refines_bind; [apply refines_refl|]; intros ?).
  now apply refines_table_loop.
Qed.

Lemma refines_field_value_with (n1 n2 : nat) :
  (n1 <= n2)%nat ->
  refines (field_value_with fv1 n1) (field_value_with fv2 n2).
Proof.
  intros Hn. unfold field_value_with.
  apply refines_bind; [apply refines_refl|]. intros type.
  repeat match goal with
         | |- refines (if ?x then _ else _) _ => destruct x
         end;
    try apply refines_refl;
    (apply refines_bind; [|intros ?; apply refines_refl]).
  - now apply refines_decode_field_array_with.
  - now apply refines_decode_field_table_with.
Qed.
End Budget.

(** A larger budget gives the same outcome, once there is one. *)
Lemma field_value_budget (f1 f2 : nat) :
  (f1 <= f2)%nat -> refines (field_value f1) (field_value f2).
Proof.
  revert f2. induction f1 as [|f1 IH]; intros f2 Hf.
  - intros c. now left.
  - destruct f2 as [|f2]; [lia|]. cbn [field_value].
    apply refines_field_value_with; [apply IH|]; lia.
Qed.

Lemma decode_field_array_budget (f1 f2 : nat) :
  (f1 <= f2)%nat -> refines (decode_field_array f1) (decode_field_array f2).
Proof.
  intros Hf. unfold decode_field_array.
  apply refines_decode_field_array_with; [now apply field_value_budget | assumption].
Qed.

Lemma decode_field_table_budget (f1 f2 : nat) :
  (f1 <= f2)%nat -> refines (decode_field_table f1) (decode_field_table f2).
Proof.
  intros Hf. unfold decode_field_table.
  apply refines_decode_field_table_with; [now apply field_value_budget | assumption].
Qed.

(** ** Field arrays *)

Lemma array_loop_elements (fv : M value) (start size : Z) (c c2 : Codec)
    (l : list value) :
  elements fv start size c l c2 ->
  forall n result, (length l < n)%nat ->
    array_loop fv n start size result c = Return (result ++ l) c2.
Proof.
  induction 1 as [c Hc | c c1 c2 v l Hc Hv Hl IH]; intros n result Hn.
  - destruct n as [|n]; [lia|]. cbn [array_loop]. unfold bind, get.
    replace (nread c - start <? size) with false
      by (symmetry; apply Z.ltb_ge; lia).
    now rewrite app_nil_r.
  - destruct n as [|n]; [cbn in Hn; lia|]. cbn [array_loop].
    unfold bind at 1, get.
    replace (nread c - start <? size) with true
      by (symmetry; apply Z.ltb_lt; lia).
    unfold bind. rewrite Hv, IH by (cbn in Hn; lia).
    now rewrite <- app_assoc.
Qed.

Lemma array_loop_inv (fv : M value) (start size : Z) (n : nat) :
  forall result c res c2,
    array_loop fv n start size result c = Return res c2 ->
    exists l, res = result ++ l /\ elements fv start size c l c2.
Proof.
  induction n as [|n IH]; intros result c res c2 H; [discriminate|].
  cbn [array_loop] in H. unfold bind at 1, get in H.
  destruct (nread c - start <? size) eqn:E.
  - unfold bind in H. destruct (fv c) as [v c1|e c1|] eqn:Hv; try discriminate.
    apply IH in H as (l & -> & Hl). exists (v :: l).
    split; [now rewrite <- app_assoc|].
    apply Z.ltb_lt in E. now apply (elements_more _ _ _ c c1 c2).
  - injection H as <- <-. exists []. rewrite app_nil_r. split; [reflexivity|].
    apply Z.ltb_ge in E. apply elements_done. lia.
Qed.

(** When the loop stops, the bytes read are no fewer than [size]. *)
Lemma elements_stop (fv : M value) (start size : Z) (c c2 : Codec)
    (l : list value) :
  elements fv start size c l c2 -> size <= nread c2 - start.
Proof. induction 1; [lia | assumption]. Qed.

Lemma decode_long_int_bytes (data rest : bytes) (c : Codec) :
  remaining (stream c) = data ++ rest ->
  length data = 4%nat ->
  decode_long_int c
  = Return (VInt (to_signed 4 (be_int data))) (advanced 4 c).
Proof.
  intros Hrem Hlen. unfold decode_long_int.
  rewrite (unpack_enough fmt_l data rest)
    by (assumption || (unfold len; now rewrite Hlen)).
  unfold struct_unpack, len. rewrite Hlen. reflexivity.
Qed.

Lemma to_signed_range (w : nat) (z : Z) :
  (0 < w)%nat -> 0 <= z < 256 ^ Z.of_nat w ->
  - 2 ^ (8 * Z.of_nat w - 1) <= to_signed w z < 2 ^ (8 * Z.of_nat w - 1).
Proof.
  intros Hw Hz. unfold to_signed.
  assert (H : 256 ^ Z.of_nat w = 2 * 2 ^ (8 * Z.of_nat w - 1)).
  { change 256 with (2 ^ 8). rewrite <- Z.pow_mul_r by lia.
    rewrite <- Z.pow_succ_r by lia. f_equal. lia. }
  replace (2 ^ (8 * Z.of_nat w)) with (256 ^ Z.of_nat w)
    by (change 256 with (2 ^ 8); now rewrite <- Z.pow_mul_r by lia).
  destruct (z <? 2 ^ (8 * Z.of_nat w - 1)) eqn:E;
    [apply Z.ltb_lt in E | apply Z.ltb_ge in E]; lia.
Qed.

(** C2: [decode_field_array] reads a four-byte signed [size], then runs
    [field_value] again and again until the bytes read since then are no
    fewer than [size] (the run is [elements]).  At the end of the run it
    returns the elements when the bytes read are exactly [size], and raises
    the [ValueError] of a size mismatch otherwise; so whenever it returns,
    the count is exact.  A budget above the bytes at hand is never
    exhausted. *)
Theorem decode_field_array_framing
    (fuel : nat) (c : Codec) (data rest : bytes) :
  remaining (stream c) = data ++ rest ->
  length data = 4%nat ->
  let size := to_signed 4 (be_int data) in
  let c1 := advanced 4 c in
  - 2 ^ 31 <= size < 2 ^ 31
  /\ decode_long_int c = Return (VInt size) c1
  /\ (forall l c2,
        elements (field_value fuel) (nread c1) size c1 l c2 ->
        (length l < fuel)%nat ->
        decode_field_array fuel c
        = if nread c2 - nread c1 =? size then Return l c2
          else Raise (ValueError (Problem_with_size_of_field_array
                                    (nread c2 - nread c1) size)) c2)
  /\ (forall l c2,
        decode_field_array fuel c = Return l c2 ->
        elements (field_value fuel) (nread c1) size c1 l c2
        /\ nread c2 - nread c1 = size)
  /\ ((avail c < fuel)%nat -> decode_field_array fuel c <> OutOfFuel).
Proof.
  intros Hrem Hlen size c1.
  pose proof (decode_long_int_bytes data rest c Hrem Hlen) as Hsize.
  fold size c1 in Hsize.
  split.
  { apply (to_signed_range 4); [lia|].
    pose proof (be_int_range data) as H. unfold len in H. now rewrite Hlen in H. }
  split; [exact Hsize|].
  split; [|split].
  - intros l c2 Hl Hn.
    unfold decode_field_array, decode_field_array_with.
    unfold bind at 1. rewrite Hsize.
    unfold bind at 1. cbn [int_of index ret].
    unfold bind at 1, get at 1.
    unfold bind at 1.
    rewrite (array_loop_elements _ _ _ _ _ _ Hl) by assumption.
    cbn [app]. unfold bind, get.
    now destruct (nread c2 - nread c1 =? size).
  - intros l c2 H.
    unfold decode_field_array, decode_field_array_with in H.
    unfold bind at 1 in H. rewrite Hsize in H.
    unfold bind at 1 in H. cbn [int_of index ret] in H.
    unfold bind at 1, get at 1 in H.
    unfold bind at 1 in H.
    destruct (array_loop (field_value fuel) fuel (nread c1) size [] c1)
      as [res c3|e c3|] eqn:Hloop; try discriminate.
    apply array_loop_inv in Hloop as (l' & -> & Hl').
    unfold bind, get in H.
    destruct (nread c3 - nread c1 =? size) eqn:E; [|discriminate].
    cbn [negb ret app] in H. injection H as <- <-.
    apply Z.eqb_eq in E. now split.
  - intros Hfuel. unfold decode_field_array.
    apply (decode_field_array_with_defined _ (field_value_consumes fuel) (avail c));
      [|lia|assumption].
    intros c' Hc'. apply field_value_defined. lia.
Qed.

(** A crafted array: the declared size is 1, the one element takes two
    bytes; the decoder raises the size mismatch (2 != 1). *)
Lemma decode_field_array_framing_witness :
  let c := Codec_init {| buf := [chr 0; chr 0; chr 0; chr 1; "t"%char; chr 1];
                         pos := 0 |} in
  decode_field_array 2 c
  = Raise (ValueError (Problem_with_size_of_field_array 2 1)) (advanced 6 c).
Proof.
  intros c.
  destruct (decode_field_array_framing 2 c
              [chr 0; chr 0; chr 0; chr 1] ["t"%char; chr 1] eq_refl eq_refl)
    as (_ & _ & H & _).
  apply (H [VBool true] (advanced 6 c)); [|cbn; lia].
  apply (elements_more _ _ _ _ (advanced 6 c));
    [compute_done | reflexivity |].
  apply elements_done. compute_done.
Defined.

(** ** Field tables: the encoder *)

Lemma wrote_fresh (s bs : bytes) : wrote s (fresh bs) = fresh (bs ++ s).
Proof.
  unfold wrote, fresh, set_nwrote, set_stream. cbn [stream nwrote nread
    incoming_bits outgoing_bits].
  rewrite StringIO_write_end by reflexivity. cbn [buf].
  now rewrite len_app.
Qed.

Lemma wrote_wrote (s1 s2 : bytes) (c : Codec) :
  wrote s2 (wrote s1 c) = wrote (s1 ++ s2) c.
Proof.
  unfold wrote, set_nwrote, set_stream. cbn [stream nwrote nread
    incoming_bits outgoing_bits].
  rewrite StringIO_write_write, len_app. f_equal. lia.
Qed.

Lemma write_empty (s : bytes) (c : Codec) :
  outgoing_bits c = [] -> write s c = Return tt (wrote s c).
Proof. intros H. now rewrite write_wrote, flushed_empty. Qed.

Lemma pack_unsigned (f : fmt) (w : nat) (z : Z) (c : Codec) :
  int_code f = Some (false, w) ->
  outgoing_bits c = [] ->
  0 <= z < 256 ^ Z.of_nat w ->
  pack f [VInt z] c = Return tt (wrote (be_bytes w z) c).
Proof.
  intros Hf Hc Hz. apply pack_wrote_empty; [assumption|].
  assert (Hr : in_range false w z = true) by now apply in_range_unsigned.
  destruct f; try discriminate; cbn [struct_pack int_code index] in *;
    injection Hf as <-; now rewrite Hr.
Qed.

Lemma pack_out_of_range (f : fmt) (w : nat) (z : Z) (c : Codec) :
  int_code f = Some (false, w) ->
  ~ (0 <= z < 256 ^ Z.of_nat w) ->
  pack f [VInt z] c = Raise struct_error c.
Proof.
  intros Hf Hz. apply pack_error.
  assert (Hr : in_range false w z = false).
  { destruct (in_range false w z) eqn:E; [|reflexivity].
    now apply in_range_unsigned in E. }
  destruct f; try discriminate; cbn [struct_pack int_code index] in *;
    injection Hf as <-; now rewrite Hr.
Qed.

Lemma encode_short_string_wrote (s : bytes) (c : Codec) :
  outgoing_bits c = [] ->
  len s < 256 ->
  encode_short_string s c = Return tt (wrote ([chr (len s)] ++ s) c).
Proof.
  intros Hc Hs. unfold encode_short_string, encode_short_short_uint, bind.
  pose proof (len_nonneg s).
  rewrite (pack_unsigned fmt_B 1)
    by (reflexivity || assumption || (change (256 ^ Z.of_nat 1) with 256; lia)).
  rewrite write_empty by assumption.
  now rewrite be_bytes_1, wrote_wrote by lia.
Qed.

Lemma enc_str_L_wrote (s : bytes) (c : Codec) :
  outgoing_bits c = [] ->
  len s < 2 ^ 32 ->
  enc_str fmt_L s c = Return tt (wrote (be_bytes 4 (len s) ++ s) c).
Proof.
  intros Hc Hs. unfold enc_str, bind.
  pose proof (len_nonneg s).
  rewrite (pack_unsigned fmt_L 4)
    by (reflexivity || assumption || (change (256 ^ Z.of_nat 4) with (2 ^ 32); lia)).
  rewrite write_empty by assumption.
  now rewrite wrote_wrote.
Qed.

Lemma encode_item_wrote (item : bytes * value) (c : Codec) :
  outgoing_bits c = [] ->
  item_ok item ->
  encode_item item c = Return tt (wrote (item_enc item) c).
Proof.
  destruct item as [key v]. intros Hc [Hk Hv]. cbn [fst snd] in *.
  unfold encode_item, item_enc, encode_shortstr. cbn [fst snd].
  unfold bind at 1. rewrite encode_short_string_wrote by assumption.
  assert (Hint : forall z, index v = Some z -> 0 <= z < 2 ^ 32 ->
            (write (b "I");; encode_long v) (wrote ([chr (len key)] ++ key) c)
            = Return tt (wrote ([chr (len key)] ++ key ++ b "I"
                                ++ be_bytes 4 (default 0 (index v))) c)).
  { intros z Hz Hr. unfold bind. rewrite write_empty by assumption.
    unfold encode_long, encode_long_uint.
    rewrite (pack_wrote_empty _ _ (be_bytes 4 z)); [|assumption|].
    - rewrite !wrote_wrote, Hz. cbn [default]. now rewrite <- !app_assoc.
    - cbn [struct_pack].
      assert (Hr' : in_range false 4 z = true)
        by (apply in_range_unsigned; change (256 ^ Z.of_nat 4) with (2 ^ 32); lia).
      destruct v; cbn [index int_code] in *; try discriminate;
        injection Hz as <-; now rewrite Hr'. }
  destruct v as [x|z0|w bits|d|s|l|l|m];
    try (destruct Hv as (z' & Hz' & Hr'); exact (Hint z' Hz' Hr')).
  unfold bind. rewrite write_empty by assumption.
  unfold encode_longstr. rewrite enc_str_L_wrote by assumption.
  rewrite !wrote_wrote. now rewrite <- !app_assoc.
Qed.

Lemma for_encode_item_fresh (items : list (bytes * value)) (bs : bytes) :
  Forall item_ok items ->
  for_ items encode_item (fresh bs)
  = Return tt (fresh (bs ++ flat_map item_enc items)).
Proof.
  intros H. revert bs. induction H as [|item items Hi _ IH]; intros bs.
  - cbn. now rewrite app_nil_r.
  - cbn [for_ flat_map]. unfold bind.
    rewrite encode_item_wrote by (reflexivity || assumption).
    rewrite wrote_fresh, IH. now rewrite <- app_assoc.
Qed.

(** [encode_field_table] on a table whose items can be written and whose
    body fits a four-byte length: the length of the body, then the body. *)
Lemma encode_field_table_wrote (tbl : gmap bytes value) (c : Codec) :
  Forall item_ok (map_to_list tbl) ->
  len (table_body tbl) < 2 ^ 32 ->
  encode_field_table tbl c
  = Return tt (wrote (be_bytes 4 (len (table_body tbl)) ++ table_body tbl)
                 (flushed c)).
Proof.
  intros Hok Hlen. unfold encode_field_table.
  change (Codec_init StringIO_new) with (fresh []).
  rewrite for_encode_item_fresh by assumption.
  cbn [app fresh stream getvalue buf]. fold (table_body tbl).
  unfold bind, encode_long_uint.
  pose proof (len_nonneg (table_body tbl)).
  rewrite (pack_wrote _ _ (be_bytes 4 (len (table_body tbl)))).
  - rewrite write_empty by apply outgoing_bits_flushed.
    now rewrite wrote_wrote.
  - cbn [struct_pack int_code index].
    now replace (in_range false 4 (len (table_body tbl))) with true
      by (symmetry; apply in_range_unsigned;
          change (256 ^ Z.of_nat 4) with (2 ^ 32); lia).
Qed.

(** ** Field tables: the decoder *)

Lemma advanced_advanced (k1 k2 : nat) (c : Codec) :
  advanced k2 (advanced k1 c) = advanced (k1 + k2) c.
Proof.
  unfold advanced, set_nread, set_stream. cbn [stream nwrote nread
    incoming_bits outgoing_bits buf pos].
  f_equal; [f_equal; lia | lia].
Qed.

Lemma unpack_unsigned (f : fmt) (w : nat) (z : Z) (rest : bytes) (c : Codec) :
  int_code f = Some (false, w) ->
  calcsize f = Z.of_nat w ->
  0 <= z < 256 ^ Z.of_nat w ->
  remaining (stream c) = be_bytes w z ++ rest ->
  unpack f c = Return (VInt z) (advanced w c).
Proof.
  intros Hf Hsz Hz Hrem.
  assert (Hl : len (be_bytes w z) = calcsize f)
    by (unfold len; now rewrite length_be_bytes).
  rewrite (unpack_enough f (be_bytes w z) rest) by assumption.
  unfold struct_unpack. rewrite Hl, Z.eqb_refl, length_be_bytes.
  rewrite be_int_be_bytes, Z.mod_small by assumption.
  destruct f; try discriminate; reflexivity.
Qed.

Lemma decode_short_string_bytes (s rest : bytes) (c : Codec) :
  len s < 256 ->
  remaining (stream c) = [chr (len s)] ++ s ++ rest ->
  decode_short_string c = Return s (advanced (1 + length s) c).
Proof.
  intros Hs Hrem. pose proof (len_nonneg s).
  unfold decode_short_string, decode_short_short_uint, bind.
  rewrite (unpack_unsigned fmt_B 1 (len s) (s ++ rest));
    [|reflexivity|reflexivity|change (256 ^ Z.of_nat 1) with 256; lia
     |now rewrite be_bytes_1 by lia].
  cbn [int_of index ret].
  rewrite (read_enough (len s) s rest); [|now apply (remaining_advanced [chr (len s)])|reflexivity].
  now rewrite advanced_advanced.
Qed.

Lemma decode_long_string_bytes (s rest : bytes) (c : Codec) :
  len s < 2 ^ 32 ->
  remaining (stream c) = be_bytes 4 (len s) ++ s ++ rest ->
  decode_long_string c = Return s (advanced (4 + length s) c).
Proof.
  intros Hs Hrem. pose proof (len_nonneg s).
  unfold decode_long_string, decode_long_uint, bind.
  rewrite (unpack_unsigned fmt_L 4 (len s) (s ++ rest));
    [|reflexivity|reflexivity|change (256 ^ Z.of_nat 4) with (2 ^ 32); lia
     |assumption].
  cbn [int_of index ret].
  rewrite (read_enough (len s) s rest); [|..|reflexivity].
  - now rewrite advanced_advanced.
  - replace 4%nat with (length (be_bytes 4 (len s))) at 1
      by apply length_be_bytes.
    now apply remaining_advanced.
Qed.

Lemma field_value_S (fuel : nat) (s rest : bytes) (c : Codec) :
  len s < 2 ^ 32 ->
  remaining (stream c) = b "S" ++ be_bytes 4 (len s) ++ s ++ rest ->
  field_value (S fuel) c = Return (VStr s) (advanced (5 + length s) c).
Proof.
  intros Hs Hrem. cbn [field_value]. unfold field_value_with.
  unfold bind at 1.
  rewrite (read_enough 1 (b "S") (be_bytes 4 (len s) ++ s ++ rest))
    by (assumption || reflexivity).
  replace (bool_decide (b "S" = b "S")) with true by reflexivity.
  repeat match goal with
         | |- context [bool_decide (b "S" = b ?t)] =>
             replace (bool_decide (b "S" = b t)) with false by reflexivity
         end.
  unfold bind.
  rewrite (decode_long_string_bytes s rest);
    [|assumption|now apply (remaining_advanced (b "S"))].
  cbn [ret]. now rewrite advanced_advanced.
Qed.

Lemma field_value_I (fuel : nat) (z : Z) (rest : bytes) (c : Codec) :
  remaining (stream c) = b "I" ++ be_bytes 4 z ++ rest ->
  field_value (S fuel) c
  = Return (VInt (to_signed 4 (z mod 2 ^ 32))) (advanced 5 c).
Proof.
  intros Hrem. cbn [field_value]. unfold field_value_with.
  unfold bind at 1.
  rewrite (read_enough 1 (b "I") (be_bytes 4 z ++ rest))
    by (assumption || reflexivity).
  replace (bool_decide (b "I" = b "I")) with true by reflexivity.
  repeat match goal with
         | |- context [bool_decide (b "I" = b ?t)] =>
             replace (bool_decide (b "I" = b t)) with false by reflexivity
         end.
  unfold decode_long_int.
  rewrite (unpack_enough fmt_l (be_bytes 4 z) rest);
    [|now apply (remaining_advanced (b "I"))|reflexivity].
  unfold struct_unpack.
  replace (len (be_bytes 4 z) =? calcsize fmt_l) with true by reflexivity.
  cbn [int_code]. rewrite be_int_be_bytes.
  now rewrite advanced_advanced.
Qed.

Lemma len_item_enc_pos (item : bytes * value) : 0 < len (item_enc item).
Proof.
  unfold item_enc. rewrite len_app. pose proof (len_nonneg (item.1 ++
    match item.2 with
    | VStr s => b "S" ++ be_bytes 4 (len s) ++ s
    | v => b "I" ++ be_bytes 4 (default 0 (index v))
    end)).
  unfold len at 1. cbn [length]. lia.
Qed.

(** One turn of the loop of [decode_field_table] on the bytes of an item. *)
Lemma decode_item (fuel : nat) (item : bytes * value) (rest : bytes)
    (c : Codec) :
  item_ok item ->
  remaining (stream c) = item_enc item ++ rest ->
  decode_short_string c
  = Return item.1 (advanced (1 + length item.1) c)
  /\ field_value (S fuel) (advanced (1 + length item.1) c)
     = Return (decoded item.2) (advanced (length (item_enc item)) c).
Proof.
  destruct item as [key v]. intros [Hk Hv] Hrem. cbn [fst snd] in *.
  unfold item_enc in *. cbn [fst snd] in *.
  rewrite <- !app_assoc in Hrem.
  split; [eapply decode_short_string_bytes; [exact Hk | exact Hrem]|].
  assert (Hr : forall tail,
             remaining (stream c) = [chr (len key)] ++ key ++ tail ->
             remaining (stream (advanced (1 + length key) c)) = tail).
  { intros tail H. rewrite app_assoc in H.
    apply remaining_advanced in H. now rewrite length_app in H. }
  assert (Hint : forall z, index v = Some z -> 0 <= z < 2 ^ 32 ->
            remaining (stream c)
            = [chr (len key)] ++ key ++ (b "I" ++ be_bytes 4 (default 0 (index v))) ++ rest ->
            field_value (S fuel) (advanced (1 + length key) c)
            = Return (VInt (to_signed 4 (default 0 (index v))))
                (advanced (length ([chr (len key)] ++ key ++ b "I"
                                   ++ be_bytes 4 (default 0 (index v)))) c)).
  { intros z Hz Hzr H. rewrite <- app_assoc in H. apply Hr in H.
    rewrite Hz in *. cbn [default] in *.
    rewrite (field_value_I fuel z rest) by assumption.
    rewrite Z.mod_small by lia. rewrite advanced_advanced.
    do 2 f_equal. rewrite !length_app, length_be_bytes. cbn [length b
      list_ascii_of_string]. lia. }
  destruct v as [x|z0|w bits|d|s|l|l|m];
    try (destruct Hv as (z' & Hz' & Hr'); exact (Hint z' Hz' Hr' Hrem)).
  rewrite <- !app_assoc in Hrem. apply Hr in Hrem.
  rewrite (field_value_S fuel s rest) by assumption.
  rewrite advanced_advanced. cbn [decoded].
  do 2 f_equal. rewrite !length_app, length_be_bytes. cbn [length b
    list_ascii_of_string]. lia.
Qed.

(** The loop of [decode_field_table] over the bytes of a list of items. *)
Lemma table_loop_items (fuel : nat) (start size : Z) (rest : bytes) :
  forall (items : list (bytes * value)) (n : nat)
         (result : gmap bytes value) (c : Codec),
    Forall item_ok items ->
    remaining (stream c) = flat_map item_enc items ++ rest ->
    nread c - start + len (flat_map item_enc items) = size ->
    (length items < n)%nat ->
    table_loop (field_value (S fuel)) n start size result c
    = Return (fold_left (fun m item => <[item.1 := decoded item.2]> m)
                items result)
        (advanced (length (flat_map item_enc items)) c).
Proof.
  induction items as [|item items IH]; intros n result c Hok Hrem Hsize Hn.
  - destruct n as [|n]; [cbn in Hn; lia|]. cbn [table_loop].
    unfold bind, get. cbn [flat_map] in *.
    replace (nread c - start <? size) with false
      by (symmetry; apply Z.ltb_ge; unfold len in Hsize; cbn in Hsize; lia).
    cbn [fold_left length ret]. now rewrite advanced_0.
  - destruct n as [|n]; [cbn in Hn; lia|]. cbn [table_loop].
    apply Forall_cons in Hok as [Hi Hok].
    cbn [flat_map] in *. rewrite len_app in Hsize.
    rewrite <- app_assoc in Hrem.
    pose proof (len_item_enc_pos item). pose proof (len_nonneg (flat_map item_enc items)).
    destruct (decode_item fuel item _ c Hi Hrem) as [Hkey Hval].
    unfold bind at 1, get.
    replace (nread c - start <? size) with true
      by (symmetry; apply Z.ltb_lt; lia).
    unfold bind at 1. rewrite Hkey.
    unfold bind at 1. rewrite Hval.
    rewrite IH; [|assumption|now apply remaining_advanced| |cbn in Hn; lia].
    + cbn [fold_left]. rewrite advanced_advanced. now rewrite length_app.
    + unfold advanced, len in *. cbn [nread set_nread set_stream]. lia.
Qed.

(** Decoding item after item into a dictionary gives the table of the
    decoded values, whatever the order, since no key comes twice. *)
Lemma fold_insert_items (f : value -> value) (items : list (bytes * value))
    (acc : gmap bytes value) :
  NoDup (items.*1) ->
  fold_left (fun m item => <[item.1 := f item.2]> m) items acc
  = (f <$> (list_to_map items : gmap bytes value)) ∪ acc.
Proof.
  revert acc. induction items as [|[k v] items IH]; intros acc Hnd.
  - cbn. rewrite fmap_empty. now rewrite (left_id_L ∅ (∪)).
  - cbn [fmap list_fmap fst] in Hnd. apply NoDup_cons in Hnd as [Hk Hnd].
    cbn [fold_left list_to_map foldr fst snd uncurry].
    rewrite IH by assumption.
    rewrite fmap_insert. rewrite <- insert_union_l.
    rewrite insert_union_r; [reflexivity|].
    rewrite lookup_fmap. now rewrite not_elem_of_list_to_map_1.
Qed.

Lemma fold_insert_table (f : value -> value) (tbl : gmap bytes value) :
  fold_left (fun m item => <[item.1 := f item.2]> m) (map_to_list tbl) ∅
  = f <$> tbl.
Proof.
  rewrite fold_insert_items by apply NoDup_fst_map_to_list.
  now rewrite list_to_map_to_list, (right_id_L ∅ (∪)).
Qed.

(** [decode_field_table] on the bytes [encode_field_table] wrote. *)
Lemma decode_field_table_wrote (fuel : nat) (tbl : gmap bytes value)
    (rest : bytes) (c : Codec) :
  Forall item_ok (map_to_list tbl) ->
  len (table_body tbl) < 2 ^ 32 ->
  remaining (stream c)
  = (be_bytes 4 (len (table_body tbl)) ++ table_body tbl) ++ rest ->
  (size tbl < fuel)%nat ->
  decode_field_table fuel c
  = Return (decoded <$> tbl)
      (advanced (length (be_bytes 4 (len (table_body tbl)) ++ table_body tbl)) c).
Proof.
  intros Hok Hlen Hrem Hfuel.
  destruct fuel as [|fuel]; [lia|].
  pose proof (len_nonneg (table_body tbl)).
  rewrite <- app_assoc in Hrem.
  unfold decode_field_table, decode_field_table_with, decode_long_uint.
  unfold bind at 1.
  rewrite (unpack_unsigned fmt_L 4 (len (table_body tbl)) (table_body tbl ++ rest));
    [|reflexivity|reflexivity|change (256 ^ Z.of_nat 4) with (2 ^ 32); lia
     |assumption].
  unfold bind at 1. cbn [int_of index ret]. unfold bind, get.
  rewrite (table_loop_items fuel _ _ rest (map_to_list tbl)).
  - rewrite fold_insert_table, advanced_advanced.
    now rewrite length_app, length_be_bytes.
  - assumption.
  - replace 4%nat with (length (be_bytes 4 (len (table_body tbl)))) at 1
      by apply length_be_bytes.
    now apply remaining_advanced.
  - fold (table_body tbl). lia.
  - now rewrite length_map_to_list.
Qed.

(** ** Field tables: round trips *)

Lemma roundtrips_writable (v : value) : roundtrips v -> writable v.
Proof. destruct v; cbn; lia. Qed.

Lemma len_item_enc_in (item : bytes * value) (items : list (bytes * value)) :
  item ∈ items -> len (item_enc item) <= len (flat_map item_enc items).
Proof.
  induction 1 as [item items | item item' items _ IH];
    cbn [flat_map]; rewrite len_app.
  - pose proof (len_nonneg (flat_map item_enc items)). lia.
  - pose proof (len_nonneg (item_enc item')). lia.
Qed.

Lemma items_ok (tbl : gmap bytes value) :
  (forall k v, tbl !! k = Some v -> len k < 256 /\ writable v) ->
  len (table_body tbl) < 2 ^ 32 ->
  Forall item_ok (map_to_list tbl).
Proof.
  intros Hw Hlen. apply Forall_forall. intros [k v] Hin.
  pose proof (len_item_enc_in _ _ Hin) as Hle. fold (table_body tbl) in Hle.
  apply elem_of_map_to_list in Hin. apply Hw in Hin as [Hk Hv].
  split; [exact Hk|]. cbn [fst snd].
  destruct v; cbn [writable] in Hv; try contradiction.
  - exists z. now split.
  - unfold item_enc in Hle. cbn [fst snd] in Hle.
    rewrite !len_app in Hle.
    pose proof (len_nonneg k). pose proof (len_nonneg (be_bytes 4 (len s))).
    pose proof (len_nonneg [chr (len k)]). pose proof (len_nonneg (b "S")).
    lia.
Qed.

Lemma fmap_fixed (f : value -> value) (tbl : gmap bytes value) :
  (forall k v, tbl !! k = Some v -> f v = v) -> f <$> tbl = tbl.
Proof.
  intros H. apply map_eq. intros k. rewrite lookup_fmap.
  destruct (tbl !! k) as [v|] eqn:E; [|reflexivity].
  cbn. f_equal. now apply (H k).
Qed.

Lemma decoded_roundtrips (v : value) : roundtrips v -> decoded v = v.
Proof.
  destruct v; cbn [roundtrips]; try contradiction; [|reflexivity].
  intros Hz. change (decoded (VInt z)) with (VInt (to_signed 4 z)).
  unfold to_signed.
  now replace (z <? 2 ^ (8 * Z.of_nat 4 - 1)) with true
    by (symmetry; apply Z.ltb_lt; change (2 ^ (8 * Z.of_nat 4 - 1)) with (2 ^ 31); lia).
Qed.

(** The harness [test("table", tbl)]: a codec on a fresh [StringIO] encodes
    the table, the stream is rewound and the same codec decodes. *)
Lemma test_table (tbl : gmap bytes value) (fuel : nat) :
  (forall k v, tbl !! k = Some v -> len k < 256 /\ writable v) ->
  len (table_body tbl) < 2 ^ 32 ->
  (size tbl < fuel)%nat ->
  let wire := be_bytes 4 (len (table_body tbl)) ++ table_body tbl in
  encode_field_table tbl (Codec_init StringIO_new) = Return tt (fresh wire)
  /\ decode_field_table fuel (rewind (fresh wire))
     = Return (decoded <$> tbl) (advanced (length wire) (rewind (fresh wire))).
Proof.
  intros Hw Hlen Hfuel wire.
  assert (Hok : Forall item_ok (map_to_list tbl)) by now apply items_ok.
  split.
  - change (Codec_init StringIO_new) with (fresh []).
    rewrite encode_field_table_wrote by assumption.
    now rewrite flushed_empty, wrote_fresh by reflexivity.
  - apply (decode_field_table_wrote fuel tbl []); try assumption.
    unfold remaining, rewind, reset, fresh.
    cbn [stream set_stream buf pos drop]. now rewrite app_nil_r.
Qed.

(** C7, as stated, fails: the table [{"k": 2147483648}] holds an integer;
    it encodes, and decodes to [{"k": -2147483648}]. *)
Lemma field_table_roundtrip_breaks :
  let tbl : gmap bytes value := {[ b "k" := VInt (2 ^ 31) ]} in
  exists c' d' tbl',
    encode_field_table tbl (Codec_init StringIO_new) = Return tt c'
    /\ decode_field_table 2 (rewind c') = Return tbl' d'
    /\ tbl' !! b "k" = Some (VInt (- 2 ^ 31))
    /\ tbl' <> tbl.
Proof.
  intros tbl.
  destruct (test_table tbl 2) as [He Hd].
  - intros k v H. apply lookup_singleton_Some in H as [<- <-].
    split; [vm_compute; reflexivity | cbn; lia].
  - vm_compute. reflexivity.
  - unfold tbl. rewrite map_size_singleton. lia.
  - assert (Hk : (decoded <$> tbl) !! b "k" = Some (VInt (- 2 ^ 31))).
    { unfold tbl. rewrite lookup_fmap, lookup_singleton_eq. reflexivity. }
    eexists _, _, (decoded <$> tbl).
    split; [exact He|]. split; [exact Hd|]. split; [exact Hk|].
    intros E. rewrite E in Hk. unfold tbl in Hk.
    rewrite lookup_singleton_eq in Hk. discriminate Hk.
Qed.

(** C7, amended: for a table whose keys are shorter than 256 bytes, whose
    values are strings or integers [0 <= v < 2^31], and whose encoded body
    is shorter than [2^32] bytes, [encode_field_table] writes the length of
    the body and the body, and [decode_field_table] on those bytes returns
    the same mapping. *)
Theorem field_table_roundtrip
    (tbl : gmap bytes value) (c d : Codec) (rest : bytes) (fuel : nat) :
  (forall k v, tbl !! k = Some v -> len k < 256 /\ roundtrips v) ->
  len (table_body tbl) < 2 ^ 32 ->
  let wire := be_bytes 4 (len (table_body tbl)) ++ table_body tbl in
  remaining (stream d) = wire ++ rest ->
  (size tbl < fuel)%nat ->
  encode_field_table tbl c = Return tt (wrote wire (flushed c))
  /\ decode_field_table fuel d = Return tbl (advanced (length wire) d).
Proof.
  intros Hv Hlen wire Hrem Hfuel.
  assert (Hok : Forall item_ok (map_to_list tbl)).
  { apply items_ok; [|assumption]. intros k v H.
    apply Hv in H as [Hk Hr]. auto using roundtrips_writable. }
  split; [now apply encode_field_table_wrote|].
  unfold wire. rewrite (decode_field_table_wrote fuel tbl rest) by assumption.
  rewrite fmap_fixed; [reflexivity|].
  intros k v H. apply decoded_roundtrips. now apply (Hv k).
Qed.

Lemma field_table_roundtrip_witness :
  let one : gmap bytes value := {[ b "one" := VInt 1 ]} in
  let wire (tbl : gmap bytes value) :=
    be_bytes 4 (len (table_body tbl)) ++ table_body tbl in
  let c := Codec_init StringIO_new in
  let d (tbl : gmap bytes value) :=
    Codec_init {| buf := wire tbl; pos := 0 |} in
  (encode_field_table ∅ c = Return tt (wrote (wire ∅) (flushed c))
   /\ decode_field_table 1 (d ∅)
      = Return ∅ (advanced (length (wire ∅)) (d ∅)))
  /\ (encode_field_table one c = Return tt (wrote (wire one) (flushed c))
      /\ decode_field_table 2 (d one)
         = Return one (advanced (length (wire one)) (d one))).
Proof.
  intros one wire c d. split.
  - apply (field_table_roundtrip ∅ c (d ∅) [] 1).
    + intros k v H. rewrite lookup_empty in H. discriminate H.
    + vm_compute. reflexivity.
    + unfold remaining, d. cbn [stream Codec_init buf pos drop].
      symmetry. apply app_nil_r.
    + rewrite map_size_empty. lia.
  - apply (field_table_roundtrip one c (d one) [] 2).
    + intros k v H. apply lookup_singleton_Some in H as [<- <-].
      split; [vm_compute; reflexivity | cbn; lia].
    + vm_compute. reflexivity.
    + unfold remaining, d. cbn [stream Codec_init buf pos drop].
      symmetry. apply app_nil_r.
    + unfold one. rewrite map_size_singleton. lia.
Defined.

(** ** Field tables: integers of 32 bits *)

Lemma packs_bind {A B} (m : M A) (k : A -> M B) :
  packs m -> (forall a, packs (k a)) -> packs (bind m k).
Proof.
  intros Hm Hk c. unfold bind.
  destruct (Hm c) as [(a & c' & ->)|(c' & ->)]; [apply Hk | right; eauto].
Qed.

Lemma fails_bind {A B} (m : M A) (k : A -> M B) :
  packs m -> (forall a, fails (k a)) -> fails (bind m k).
Proof.
  intros Hm Hk c. unfold bind.
  destruct (Hm c) as [(a & c' & ->)|(c' & ->)]; [apply Hk | eauto].
Qed.

Lemma packs_write (s : bytes) : packs (write s).
Proof. intros c. left. rewrite write_wrote. eauto. Qed.

Lemma packs_pack (f : fmt) (args : list value) : packs (pack f args).
Proof.
  intros c. destruct (struct_pack f args) as [s|] eqn:E.
  - left. rewrite (pack_wrote f args s) by assumption. eauto.
  - right. rewrite pack_error by assumption. eauto.
Qed.

Lemma packs_encode_item (item : bytes * value) : packs (encode_item item).
Proof.
  destruct item as [key v]. unfold encode_item, encode_shortstr,
    encode_short_string, encode_short_short_uint, encode_longstr, enc_str,
    encode_long, encode_long_uint.
  apply packs_bind; [|intros _].
  { apply packs_bind; [apply packs_pack | intros _; apply packs_write]. }
  destruct v;
    (apply packs_bind; [apply packs_write | intros _]);
    try apply packs_pack.
  apply packs_bind; [apply packs_pack | intros _; apply packs_write].
Qed.

Lemma fails_encode_item_long (key : bytes) (z : Z) :
  ~ (0 <= z < 2 ^ 32) -> fails (encode_item (key, VInt z)).
Proof.
  intros Hz. unfold encode_item.
  apply fails_bind; [|intros _].
  { unfold encode_shortstr, encode_short_string, encode_short_short_uint.
    apply packs_bind; [apply packs_pack | intros _; apply packs_write]. }
  apply fails_bind; [apply packs_write | intros _].
  intros c. exists c. unfold encode_long, encode_long_uint.
  now apply (pack_out_of_range fmt_L 4).
Qed.

Lemma fails_for_encode_item (item : bytes * value)
    (items : list (bytes * value)) :
  item ∈ items -> fails (encode_item item) -> fails (for_ items encode_item).
Proof.
  intros Hin Hf. induction Hin as [item items | item item' items _ IH];
    cbn [for_].
  - intros c. unfold bind. destruct (Hf c) as (c' & ->). eauto.
  - apply fails_bind; [apply packs_encode_item | intros _; exact (IH Hf)].
Qed.

(** An integer outside the four unsigned bytes does not encode: the inner
    codec raises [struct.error], and nothing is written. *)
Lemma encode_field_table_raises (tbl : gmap bytes value) (k : bytes) (z : Z)
    (c : Codec) :
  tbl !! k = Some (VInt z) ->
  ~ (0 <= z < 2 ^ 32) ->
  encode_field_table tbl c = Raise struct_error c.
Proof.
  intros Hk Hz. unfold encode_field_table.
  destruct (fails_for_encode_item (k, VInt z) (map_to_list tbl)
              (proj2 (elem_of_map_to_list tbl k (VInt z)) Hk)
              (fails_encode_item_long k z Hz)
              (Codec_init StringIO_new)) as (c' & ->).
  reflexivity.
Qed.

Lemma to_signed_4 (z : Z) :
  0 <= z < 2 ^ 32 ->
  (2 ^ 31 <= z -> to_signed 4 z = z - 2 ^ 32)
  /\ (to_signed 4 z = z <-> z < 2 ^ 31).
Proof.
  intros Hz. unfold to_signed.
  change (2 ^ (8 * Z.of_nat 4 - 1)) with (2 ^ 31).
  change (2 ^ (8 * Z.of_nat 4)) with (2 ^ 32).
  destruct (z <? 2 ^ 31) eqn:E;
    [apply Z.ltb_lt in E | apply Z.ltb_ge in E]; lia.
Qed.

(** C10: [encode_field_table] writes a value that is not a string with the
    tag [I] and the unsigned four-byte packer ([encode_long]), and
    [field_value] decodes the tag [I] with the signed one.  So for a table
    the encoder can write (keys shorter than 256 bytes, strings and integers
    [0 <= v < 2^32], a body shorter than [2^32] bytes) each integer [v]
    comes back as [v - 2^32] when [2^31 <= v], and unchanged exactly when
    [v < 2^31]; an integer outside [0 <= v < 2^32] does not encode at all
    ([struct.error]). *)
Theorem field_table_long_is_signed
    (tbl : gmap bytes value) (c d : Codec) (rest : bytes) (fuel : nat) :
  ((forall k v, tbl !! k = Some v -> len k < 256 /\ writable v) ->
   len (table_body tbl) < 2 ^ 32 ->
   let wire := be_bytes 4 (len (table_body tbl)) ++ table_body tbl in
   remaining (stream d) = wire ++ rest ->
   (size tbl < fuel)%nat ->
   encode_field_table tbl c = Return tt (wrote wire (flushed c))
   /\ decode_field_table fuel d
      = Return (decoded <$> tbl) (advanced (length wire) d)
   /\ (forall k s, tbl !! k = Some (VStr s) ->
         (decoded <$> tbl) !! k = Some (VStr s))
   /\ (forall k v, tbl !! k = Some (VInt v) ->
         item_enc (k, VInt v) = [chr (len k)] ++ k ++ b "I" ++ be_bytes 4 v
         /\ struct_pack fmt_L [VInt v] = Some (be_bytes 4 v)
         /\ (decoded <$> tbl) !! k = Some (VInt (to_signed 4 v))
         /\ (2 ^ 31 <= v <= 2 ^ 32 - 1 -> to_signed 4 v = v - 2 ^ 32)
         /\ (to_signed 4 v = v <-> 0 <= v < 2 ^ 31)))
  /\ (forall k v, tbl !! k = Some (VInt v) -> ~ (0 <= v < 2 ^ 32) ->
        encode_field_table tbl c = Raise struct_error c).
Proof.
  split; [|intros k v; apply encode_field_table_raises].
  intros Hw Hlen wire Hrem Hfuel.
  assert (Hok : Forall item_ok (map_to_list tbl)) by now apply items_ok.
  split; [now apply encode_field_table_wrote|].
  split; [now apply (decode_field_table_wrote fuel tbl rest)|].
  split.
  - intros k s Hk. now rewrite lookup_fmap, Hk.
  - intros k v Hk. destruct (Hw k _ Hk) as [_ Hv]. cbn [writable] in Hv.
    destruct (to_signed_4 v Hv) as [Hhi Hlo].
    split; [reflexivity|]. split.
    { cbn [struct_pack int_code index].
      now replace (in_range false 4 v) with true
        by (symmetry; apply in_range_unsigned;
            change (256 ^ Z.of_nat 4) with (2 ^ 32); lia). }
    split; [now rewrite lookup_fmap, Hk|].
    split; [intros H; apply Hhi; lia|].
    rewrite Hlo. lia.
Qed.

Lemma field_table_long_is_signed_witness :
  let tbl : gmap bytes value := {[ b "k" := VInt (2 ^ 31) ]} in
  let wire := be_bytes 4 (len (table_body tbl)) ++ table_body tbl in
  let d := Codec_init {| buf := wire; pos := 0 |} in
  decode_field_table 2 d = Return (decoded <$> tbl) (advanced (length wire) d)
  /\ (decoded <$> tbl) !! b "k" = Some (VInt (to_signed 4 (2 ^ 31)))
  /\ to_signed 4 (2 ^ 31) = - 2 ^ 31.
Proof.
  intros tbl wire d.
  destruct (field_table_long_is_signed tbl (Codec_init StringIO_new) d [] 2)
    as [H _].
  destruct H as (_ & Hd & _ & Hi).
  - intros k v H. apply lookup_singleton_Some in H as [<- <-].
    split; [vm_compute; reflexivity | cbn; lia].
  - vm_compute. reflexivity.
  - unfold remaining, d. cbn [stream Codec_init buf pos drop].
    symmetry. apply app_nil_r.
  - unfold tbl. rewrite map_size_singleton. lia.
  - split; [exact Hd|].
    destruct (Hi (b "k") (2 ^ 31)) as (_ & _ & Hk & _);
      [apply lookup_singleton_eq|].
    split; [exact Hk | reflexivity].
Defined.

(** * More of the codec *)

(** ** Fixed-width integers *)

Lemma int_code_calcsize (f : fmt) (signed : bool) (w : nat) :
  int_code f = Some (signed, w) -> calcsize f = Z.of_nat w /\ (0 < w)%nat.
Proof. destruct f; intros H; try discriminate; injection H as <- <-; split; (reflexivity || lia). Qed.

Lemma pack_integer (f : fmt) (signed : bool) (w : nat) (z : Z) (c : Codec) :
  int_code f = Some (signed, w) ->
  in_range signed w z = true ->
  pack f [VInt z] c = Return tt (wrote (be_bytes w z) (flushed c)).
Proof.
  intros Hf Hr. apply pack_wrote.
  destruct f; try discriminate; cbn [struct_pack int_code index] in *;
    injection Hf as <- <-; now rewrite Hr.
Qed.

Lemma to_signed_mod (w : nat) (z : Z) :
  (0 < w)%nat ->
  - 2 ^ (8 * Z.of_nat w - 1) <= z < 2 ^ (8 * Z.of_nat w - 1) ->
  to_signed w (z mod 256 ^ Z.of_nat w) = z.
Proof.
  intros Hw Hz. unfold to_signed.
  assert (H : 256 ^ Z.of_nat w = 2 * 2 ^ (8 * Z.of_nat w - 1)).
  { change 256 with (2 ^ 8). rewrite <- Z.pow_mul_r by lia.
    rewrite <- Z.pow_succ_r by lia. f_equal. lia. }
  replace (2 ^ (8 * Z.of_nat w)) with (256 ^ Z.of_nat w)
    by (change 256 with (2 ^ 8); now rewrite <- Z.pow_mul_r by lia).
  assert (0 < 2 ^ (8 * Z.of_nat w - 1)) by (apply Z.pow_pos_nonneg; lia).
  destruct (Z.lt_ge_cases z 0) as [Hneg|Hpos].
  - replace (z mod 256 ^ Z.of_nat w) with (z + 256 ^ Z.of_nat w)
      by (apply (Z.mod_unique _ _ (-1)); lia).
    replace (z + 256 ^ Z.of_nat w <? 2 ^ (8 * Z.of_nat w - 1)) with false
      by (symmetry; apply Z.ltb_ge; lia).
    lia.
  - rewrite Z.mod_small by lia.
    now replace (z <? 2 ^ (8 * Z.of_nat w - 1)) with true
      by (symmetry; apply Z.ltb_lt; lia).
Qed.

Lemma unpack_signed (f : fmt) (w : nat) (z : Z) (rest : bytes) (c : Codec) :
  int_code f = Some (true, w) ->
  - 2 ^ (8 * Z.of_nat w - 1) <= z < 2 ^ (8 * Z.of_nat w - 1) ->
  remaining (stream c) = be_bytes w z ++ rest ->
  unpack f c = Return (VInt z) (advanced w c).
Proof.
  intros Hf Hz Hrem. destruct (int_code_calcsize f _ _ Hf) as [Hsz Hw].
  assert (Hl : len (be_bytes w z) = calcsize f)
    by (unfold len; now rewrite length_be_bytes).
  rewrite (unpack_enough f (be_bytes w z) rest) by assumption.
  unfold struct_unpack. rewrite Hl, Z.eqb_refl, length_be_bytes.
  rewrite be_int_be_bytes.
  destruct f; try discriminate; cbn [int_code] in *; injection Hf as <-;
    now rewrite to_signed_mod.
Qed.

(** X1: the unsigned integer types round-trip on their whole range: for
    [0 <= v < 256^w], [encode_octet], [encode_short], [encode_long] and
    [encode_longlong] (w = 1, 2, 4, 8) write the [w] big-endian bytes of [v]
    after the pending bits, and the matching decoder on those bytes returns
    [v] and reads [w] bytes. *)
Theorem unsigned_roundtrip (w : nat) (v : Z) (c d : Codec) (rest : bytes) :
  0 <= v < 256 ^ Z.of_nat w ->
  remaining (stream d) = be_bytes w v ++ rest ->
  (w = 1%nat ->
     encode_octet (VInt v) c = Return tt (wrote (be_bytes w v) (flushed c))
     /\ decode_octet d = Return (VInt v) (advanced w d))
  /\ (w = 2%nat ->
     encode_short (VInt v) c = Return tt (wrote (be_bytes w v) (flushed c))
     /\ decode_short d = Return (VInt v) (advanced w d))
  /\ (w = 4%nat ->
     encode_long (VInt v) c = Return tt (wrote (be_bytes w v) (flushed c))
     /\ decode_long d = Return (VInt v) (advanced w d))
  /\ (w = 8%nat ->
     encode_longlong (VInt v) c = Return tt (wrote (be_bytes w v) (flushed c))
     /\ decode_longlong d = Return (VInt v) (advanced w d)).
Proof.
  intros Hv Hrem.
  assert (Hr : in_range false w v = true) by now apply in_range_unsigned.
  repeat split; subst w;
    first [ now apply (pack_integer _ false)
          | now apply (unpack_unsigned _ _ v rest) ].
Qed.

Lemma unsigned_roundtrip_witness :
  encode_short (VInt 258) (Codec_init StringIO_new)
  = Return tt (wrote (be_bytes 2 258) (flushed (Codec_init StringIO_new)))
  /\ decode_short (Codec_init {| buf := [chr 1; chr 2; chr 3]; pos := 0 |})
     = Return (VInt 258)
         (advanced 2 (Codec_init {| buf := [chr 1; chr 2; chr 3]; pos := 0 |})).
Proof.
  destruct (unsigned_roundtrip 2 258 (Codec_init StringIO_new)
              (Codec_init {| buf := [chr 1; chr 2; chr 3]; pos := 0 |})
              [chr 3]) as (_ & H & _).
  - cbn. lia.
  - reflexivity.
  - now apply H.
Defined.

(** X2: the signed integer types round-trip on their whole range: for
    [-2^(8w-1) <= v < 2^(8w-1)], [encode_short_short_int],
    [encode_short_int], [encode_long_int] and [encode_long_long_int]
    (w = 1, 2, 4, 8) write the two's complement of [v] on [w] bytes and the
    matching decoder returns [v], negative values included. *)
Theorem signed_roundtrip (w : nat) (v : Z) (c d : Codec) (rest : bytes) :
  - 2 ^ (8 * Z.of_nat w - 1) <= v < 2 ^ (8 * Z.of_nat w - 1) ->
  remaining (stream d) = be_bytes w v ++ rest ->
  (w = 1%nat ->
     encode_short_short_int (VInt v) c
     = Return tt (wrote (be_bytes w v) (flushed c))
     /\ decode_short_short_int d = Return (VInt v) (advanced w d))
  /\ (w = 2%nat ->
     encode_short_int (VInt v) c = Return tt (wrote (be_bytes w v) (flushed c))
     /\ decode_short_int d = Return (VInt v) (advanced w d))
  /\ (w = 4%nat ->
     encode_long_int (VInt v) c = Return tt (wrote (be_bytes w v) (flushed c))
     /\ decode_long_int d = Return (VInt v) (advanced w d))
  /\ (w = 8%nat ->
     encode_long_long_int (VInt v) c
     = Return tt (wrote (be_bytes w v) (flushed c))
     /\ decode_long_long_int d = Return (VInt v) (advanced w d)).
Proof.
  intros Hv Hrem.
  assert (Hr : in_range true w v = true) by now apply in_range_signed.
  repeat split; subst w;
    first [ now apply (pack_integer _ true)
          | now apply (unpack_signed _ _ v rest) ].
Qed.

Lemma signed_roundtrip_witness :
  encode_short_int (VInt (-2)) (Codec_init StringIO_new)
  = Return tt (wrote (be_bytes 2 (-2)) (flushed (Codec_init StringIO_new)))
  /\ decode_short_int (Codec_init {| buf := [chr 255; chr 254]; pos := 0 |})
     = Return (VInt (-2))
         (advanced 2 (Codec_init {| buf := [chr 255; chr 254]; pos := 0 |})).
Proof.
  destruct (signed_roundtrip 2 (-2) (Codec_init StringIO_new)
              (Codec_init {| buf := [chr 255; chr 254]; pos := 0 |})
              []) as (_ & H & _).
  - cbn. lia.
  - reflexivity.
  - now apply H.
Defined.

(** X3: an integer outside the range of its format is refused before
    anything happens: [pack] raises [struct.error] and the codec is as it
    was: nothing written, [nwrote] unchanged, the pending bits still
    queued (they are not flushed). *)
Theorem pack_out_of_range_untouched
    (f : fmt) (signed : bool) (w : nat) (v : Z) (c : Codec) :
  int_code f = Some (signed, w) ->
  (if signed
   then ~ (- 2 ^ (8 * Z.of_nat w - 1) <= v < 2 ^ (8 * Z.of_nat w - 1))
   else ~ (0 <= v < 256 ^ Z.of_nat w)) ->
  pack f [VInt v] c = Raise struct_error c.
Proof.
  intros Hf Hv. apply pack_error.
  assert (Hr : in_range signed w v = false).
  { destruct (in_range signed w v) eqn:E; [|reflexivity].
    destruct signed; [apply in_range_signed in E | apply in_range_unsigned in E];
      contradiction. }
  destruct f; try discriminate; cbn [struct_pack int_code index] in *;
    injection Hf as <- <-; now rewrite Hr.
Qed.

Lemma pack_out_of_range_untouched_witness :
  encode_octet (VInt 256)
    (set_outgoing_bits [true] (Codec_init StringIO_new))
  = Raise struct_error (set_outgoing_bits [true] (Codec_init StringIO_new)).
Proof.
  apply (pack_out_of_range_untouched fmt_B false 1 256); [reflexivity|].
  cbn. lia.
Defined.

(** ** Strings *)

Lemma flushed_wrote_flushed (s : bytes) (c : Codec) :
  flushed (wrote s (flushed c)) = wrote s (flushed c).
Proof. apply flushed_empty. apply outgoing_bits_flushed. Qed.

(** X4: short strings round-trip up to 255 bytes: [encode_shortstr] writes
    the length on one byte and then the bytes (after the pending bits), and
    [decode_shortstr] on those bytes returns the string, the empty one
    included, and reads [1 + len(s)] bytes. *)
Theorem shortstr_roundtrip (s rest : bytes) (c d : Codec) :
  len s < 256 ->
  remaining (stream d) = [chr (len s)] ++ s ++ rest ->
  encode_shortstr s c = Return tt (wrote ([chr (len s)] ++ s) (flushed c))
  /\ decode_shortstr d = Return s (advanced (1 + length s) d).
Proof.
  intros Hs Hrem. pose proof (len_nonneg s). split.
  - unfold encode_shortstr, encode_short_string, encode_short_short_uint, bind.
    rewrite (pack_integer fmt_B false 1)
      by (reflexivity || (apply in_range_unsigned;
                          change (256 ^ Z.of_nat 1) with 256; lia)).
    rewrite write_wrote, flushed_wrote_flushed, wrote_wrote.
    now rewrite be_bytes_1 by lia.
  - now apply (decode_short_string_bytes s rest).
Qed.

Lemma shortstr_roundtrip_witness :
  encode_shortstr (b "asdf") (Codec_init StringIO_new)
  = Return tt (wrote ([chr 4] ++ b "asdf") (flushed (Codec_init StringIO_new)))
  /\ decode_shortstr (Codec_init {| buf := [chr 4] ++ b "asdf!"; pos := 0 |})
     = Return (b "asdf")
         (advanced 5 (Codec_init {| buf := [chr 4] ++ b "asdf!"; pos := 0 |})).
Proof.
  apply (shortstr_roundtrip (b "asdf") (b "!")); reflexivity.
Defined.

(** X5: a short string of 256 bytes or more is refused: [encode_shortstr]
    raises [struct.error] on the length byte, before anything is written
    or flushed; it is not truncated. *)
Theorem shortstr_too_long (s : bytes) (c : Codec) :
  256 <= len s -> encode_shortstr s c = Raise struct_error c.
Proof.
  intros Hs. unfold encode_shortstr, encode_short_string,
    encode_short_short_uint, bind.
  rewrite (pack_out_of_range fmt_B 1); [reflexivity | reflexivity |].
  change (256 ^ Z.of_nat 1) with 256. lia.
Qed.

Lemma shortstr_too_long_witness :
  encode_shortstr (replicate 256 (chr 0)) (Codec_init StringIO_new)
  = Raise struct_error (Codec_init StringIO_new).
Proof.
  apply shortstr_too_long. unfold len. rewrite length_replicate. lia.
Defined.

Lemma dec_str_L_bytes (s rest : bytes) (c : Codec) :
  len s < 2 ^ 32 ->
  remaining (stream c) = be_bytes 4 (len s) ++ s ++ rest ->
  dec_str fmt_L c = Return s (advanced (4 + length s) c).
Proof.
  intros Hs Hrem.
  now apply (decode_long_string_bytes s rest c).
Qed.

(** X6: long strings round-trip: [encode_longstr] writes the length on four
    unsigned bytes and then the bytes, and [decode_longstr] (as well as
    [decode_long_string]) on those bytes returns the string and reads
    [4 + len(s)] bytes. *)
Theorem longstr_roundtrip (s rest : bytes) (c d : Codec) :
  len s < 2 ^ 32 ->
  remaining (stream d) = be_bytes 4 (len s) ++ s ++ rest ->
  encode_longstr s c = Return tt (wrote (be_bytes 4 (len s) ++ s) (flushed c))
  /\ decode_longstr d = Return s (advanced (4 + length s) d)
  /\ decode_long_string d = Return s (advanced (4 + length s) d).
Proof.
  intros Hs Hrem. pose proof (len_nonneg s). split; [|split].
  - unfold encode_longstr, enc_str, bind.
    rewrite (pack_integer fmt_L false 4)
      by (reflexivity || (apply in_range_unsigned;
                          change (256 ^ Z.of_nat 4) with (2 ^ 32); lia)).
    now rewrite write_wrote, flushed_wrote_flushed, wrote_wrote.
  - now apply (dec_str_L_bytes s rest).
  - now apply (decode_long_string_bytes s rest).
Qed.

Lemma longstr_roundtrip_witness :
  decode_longstr
    (Codec_init {| buf := [chr 0; chr 0; chr 0; chr 1] ++ b "a"; pos := 0 |})
  = Return (b "a")
      (advanced 5
         (Codec_init {| buf := [chr 0; chr 0; chr 0; chr 1] ++ b "a";
                        pos := 0 |})).
Proof.
  apply (longstr_roundtrip (b "a") [] (Codec_init StringIO_new));
    reflexivity.
Defined.

(** X7: a string cut short is not an error: when the stream ends inside the
    body that the length byte announces, [decode_short_string] returns the
    bytes that are left, fewer than announced, and raises nothing; it
    raises [EOF] only when no byte of the body is left. *)
Theorem decode_short_string_truncated (n : Z) (body : bytes) (c : Codec) :
  0 < n < 256 ->
  len body < n ->
  remaining (stream c) = chr n :: body ->
  decode_short_string c
  = match body with
    | [] => Raise EOF (advanced 1 c)
    | _ => Return body (advanced (1 + length body) c)
    end.
Proof.
  intros Hn Hb Hrem.
  unfold decode_short_string, decode_short_short_uint, bind.
  rewrite (unpack_unsigned fmt_B 1 n body);
    [|reflexivity|reflexivity|change (256 ^ Z.of_nat 1) with 256; lia
     |now rewrite be_bytes_1 by lia].
  cbn [int_of index ret].
  assert (Hr : remaining (stream (advanced 1 c)) = body)
    by now apply (remaining_advanced [chr n]).
  destruct body as [|a body].
  - now rewrite read_eof by (lia || assumption).
  - rewrite read_short by (rewrite Hr; (cbn [length]; lia) || assumption).
    now rewrite Hr, advanced_advanced.
Qed.

Lemma decode_short_string_truncated_witness :
  decode_short_string (Codec_init {| buf := chr 4 :: b "as"; pos := 0 |})
  = Return (b "as")
      (advanced 3 (Codec_init {| buf := chr 4 :: b "as"; pos := 0 |})).
Proof.
  apply (decode_short_string_truncated 4 (b "as"));
    [lia | reflexivity | reflexivity].
Defined.

(** ** What decoding leaves alone *)

Lemma read_from_refl (c : Codec) : read_from c c.
Proof. now repeat split. Qed.

Lemma read_from_trans (c1 c2 c3 : Codec) :
  read_from c1 c2 -> read_from c2 c3 -> read_from c1 c3.
Proof.
  intros (H1 & H2 & H3 & H4 & H5) (G1 & G2 & G3 & G4 & G5).
  repeat split; congruence.
Qed.

Lemma reads_only_ret {A} (a : A) : reads_only (ret a).
Proof. intros c. apply read_from_refl. Qed.

Lemma reads_only_raise {A} (e : exn) : reads_only (@raise A e).
Proof. intros c. apply read_from_refl. Qed.

Lemma reads_only_get {A} (field : Codec -> A) : reads_only (get field).
Proof. intros c. apply read_from_refl. Qed.

Lemma reads_only_out_of_fuel {A} : reads_only (fun _ => @OutOfFuel A).
Proof. intros c. exact I. Qed.

Lemma reads_only_bind {A B} (m : M A) (k : A -> M B) :
  reads_only m -> (forall a, reads_only (k a)) -> reads_only (bind m k).
Proof.
  intros Hm Hk c. unfold bind. specialize (Hm c).
  destruct (m c) as [a c1|e c1|]; [|assumption|exact I].
  specialize (Hk a c1).
  destruct (k a c1) as [y c2|e c2|]; [| |exact I];
    now apply (read_from_trans c c1 c2).
Qed.

Lemma reads_only_read (n : Z) : reads_only (read n).
Proof.
  intros c. unfold read, StringIO_read.
  set (d := if n <? 0 then drop (pos (stream c)) (buf (stream c))
            else take (Z.to_nat n) (drop (pos (stream c)) (buf (stream c)))).
  assert (Hd : (length d <= length (drop (pos (stream c)) (buf (stream c))))%nat).
  { unfold d. destruct (n <? 0); [lia | rewrite length_take; lia]. }
  clearbody d. rewrite length_drop in Hd.
  destruct ((0 <? n) && (len d =? 0)) eqn:E.
  - apply andb_prop in E as [_ E]. apply Z.eqb_eq in E.
    assert (length d = 0%nat) by (unfold len in E; lia).
    unfold read_from, remaining.
    cbn [stream set_stream buf pos nread nwrote outgoing_bits incoming_bits].
    rewrite !length_drop. repeat split. lia.
  - unfold read_from, remaining, len.
    cbn [stream set_stream set_nread buf pos nread nwrote outgoing_bits
         incoming_bits].
    rewrite !length_drop. repeat split. lia.
Qed.

Lemma reads_only_int_of (v : value) : reads_only (int_of v).
Proof.
  unfold int_of. destruct (index v); [apply reads_only_ret | apply reads_only_raise].
Qed.

Lemma reads_only_unpack (f : fmt) : reads_only (unpack f).
Proof.
  unfold unpack. apply reads_only_bind; [apply reads_only_read|].
  intros data. destruct (struct_unpack f data) as [[|v [|w l]]|];
    first [apply reads_only_ret | apply reads_only_raise].
Qed.

#[local] Hint Resolve reads_only_ret reads_only_raise reads_only_get
  reads_only_read reads_only_int_of reads_only_unpack
  reads_only_out_of_fuel : codec.

Ltac reading :=
  repeat first
    [ solve [auto with codec]
    | apply reads_only_bind; [|intros ?] ].

Section ReadsOnly.
Variable fv : M value.
Hypothesis fv_reads_only : reads_only fv.

Lemma reads_only_array_loop (n : nat) (start size : Z) (result : list value) :
  reads_only (array_loop fv n start size result).
Proof.
  revert result. induction n as [|n IH]; intros result;
    [apply reads_only_out_of_fuel|].
  cbn [array_loop]. apply reads_only_bind; [auto with codec|].
  intros nr. destruct (nr - start <? size); [|auto with codec].
  apply reads_only_bind; [assumption | intros v; apply IH].
Qed.

Lemma reads_only_table_loop (n : nat) (start size : Z)
    (result : gmap bytes value) :
  reads_only (table_loop fv n start size result).
Proof.
  revert result. induction n as [|n IH]; intros result;
    [apply reads_only_out_of_fuel|].
  cbn [table_loop]. apply reads_only_bind; [auto with codec|].
  intros nr. destruct (nr - start <? size); [|auto with codec].
  apply reads_only_bind; [unfold_decoders; reading|]. intros key.
  apply reads_only_bind; [assumption | intros v; apply IH].
Qed.

Lemma reads_only_field_value_with (n : nat) :
  reads_only (field_value_with fv n).
Proof.
  unfold field_value_with. apply reads_only_bind; [auto with codec|].
  intros type.
  repeat match goal with
         | |- reads_only (if ?x then _ else _) => destruct x
         end;
    unfold_decoders; unfold decode_decimal_value, decode_field_array_with,
      decode_field_table_with; unfold_decoders;
    try solve [reading].
  - apply reads_only_bind; [|intros ?; auto with codec].
    do 3 (apply reads_only_bind; [auto with codec | intros ?]).
    apply reads_only_bind; [apply reads_only_array_loop | intros ?].
    apply reads_only_bind; [auto with codec | intros ?].
    destruct (negb _); auto with codec.
  - apply reads_only_bind; [|intros ?; auto with codec].
    do 3 (apply reads_only_bind; [auto with codec | intros ?]).
    apply reads_only_table_loop.
Qed.
End ReadsOnly.

(** X8: [field_value] only reads.  Whatever the bytes, and whether it
    returns or raises, the buffer is unchanged, [nread] has grown by exactly
    the number of bytes that left the stream, and [nwrote] and both bit
    queues are as before (bytes are read past any bits still queued for
    [decode_bit]). *)
Theorem field_value_reads_only (fuel : nat) (c : Codec) :
  match field_value fuel c with
  | Return _ c' | Raise _ c' =>
      buf (stream c') = buf (stream c)
      /\ nread c' - nread c
         = Z.of_nat (length (remaining (stream c)))
           - Z.of_nat (length (remaining (stream c')))
      /\ nwrote c' = nwrote c
      /\ outgoing_bits c' = outgoing_bits c
      /\ incoming_bits c' = incoming_bits c
  | OutOfFuel => True
  end.
Proof.
  assert (H : reads_only (field_value fuel)).
  { induction fuel as [|fuel IH]; [apply reads_only_out_of_fuel|].
    cbn [field_value]. now apply reads_only_field_value_with. }
  specialize (H c).
  destruct (field_value fuel c) as [v c'|e c'|]; [| |exact I];
    destruct H as (H1 & H2 & H3 & H4 & H5); repeat split;
    (assumption || lia).
Qed.

(** X9: [n] calls of [decode_bit] return, in order, the bits still queued
    and then the bits of the octets ahead, lowest bit first, and they read
    exactly the octets they need: [ceil((n - queued) / 8)] of them. *)
Theorem decode_bit_sequence (n : nat) (c : Codec) (bs rest : bytes) :
  remaining (stream c) = bs ++ rest ->
  (n <= length (incoming_bits c) + 8 * length bs)%nat ->
  exists c',
    decode_bits n c
    = Return (take n (incoming_bits c ++ flat_map unpack8 (map ord bs))) c'
    /\ nread c' = nread c + Z.of_nat ((n - length (incoming_bits c) + 7) / 8).
Proof.
  intros Hrem Hn.
  destruct (decode_bits_spec n c bs rest Hrem Hn) as (c' & H1 & H2 & _).
  now exists c'.
Qed.

Lemma decode_bit_sequence_witness :
  exists c',
    decode_bits 3
      (set_incoming_bits [true; true]
         (Codec_init {| buf := [chr 5; chr 9]; pos := 0 |}))
    = Return [true; true; true] c'
    /\ nread c' = 1.
Proof.
  destruct (decode_bit_sequence 3
              (set_incoming_bits [true; true]
                 (Codec_init {| buf := [chr 5; chr 9]; pos := 0 |}))
              [chr 5] [chr 9] eq_refl) as (c' & H1 & H2).
  - cbn. lia.
  - exists c'. split; [exact H1 | exact H2].
Defined.

(** ** The tags of [field_value] *)

(** The dispatch of [field_value] on a tag that was read. *)
Ltac dispatch_tag :=
  repeat match goal with
         | |- context [bool_decide (?x = b ?t)] =>
             let r := eval vm_compute in (bool_decide (x = b t)) in
             replace (bool_decide (x = b t)) with r by reflexivity
         end;
  cbv iota.

Lemma field_value_tag (fuel : nat) (t : ascii) (rest : bytes) (c : Codec) :
  remaining (stream c) = t :: rest ->
  field_value (S fuel) c
  = (fun type =>
       if bool_decide (type = b "t") then decode_boolean
       else if bool_decide (type = b "b") then decode_short_short_int
       else if bool_decide (type = b "B") then decode_short_short_uint
       else if bool_decide (type = b "U") then decode_short_int
       else if bool_decide (type = b "u") then decode_short_uint
       else if bool_decide (type = b "I") then decode_long_int
       else if bool_decide (type = b "i") then decode_long_uint
       else if bool_decide (type = b "L") then decode_long_long_int
       else if bool_decide (type = b "l") then decode_long_long_uint
       else if bool_decide (type = b "f") then decode_float
       else if bool_decide (type = b "d") then decode_double
       else if bool_decide (type = b "D") then decode_decimal_value
       else if bool_decide (type = b "s") then
         do s <- decode_short_string; ret (VStr s)
       else if bool_decide (type = b "S") then
         do s <- decode_long_string; ret (VStr s)
       else if bool_decide (type = b "A") then
         do l <- decode_field_array fuel; ret (VList l)
       else if bool_decide (type = b "T") then decode_timestamp
       else if bool_decide (type = b "F") then
         do m <- decode_field_table fuel; ret (VDict m)
       else if bool_decide (type = b "V") then decode_none
       else raise (ValueError (Unkown_value_type type))) [t] (advanced 1 c).
Proof.
  intros Hrem. cbn [field_value]. unfold field_value_with, bind.
  now rewrite (read_enough 1 [t] rest) by (assumption || reflexivity).
Qed.

(** X10: [field_value] gives each integer tag its width and signedness:
    [b]/[B] one byte, [U]/[u] two, [I]/[i] four, [L]/[l] eight, the first
    of each pair signed and the second unsigned, and [T] eight unsigned.
    A value in the range of its tag is returned as it is, and the tag and
    the [w] bytes are read. *)
Theorem field_value_integer_tags
    (fuel : nat) (t : ascii) (signed : bool) (w : nat) (v : Z)
    (rest : bytes) (c : Codec) :
  (t, (signed, w)) ∈ int_tags ->
  (if signed
   then - 2 ^ (8 * Z.of_nat w - 1) <= v < 2 ^ (8 * Z.of_nat w - 1)
   else 0 <= v < 256 ^ Z.of_nat w) ->
  remaining (stream c) = t :: be_bytes w v ++ rest ->
  field_value (S fuel) c = Return (VInt v) (advanced (1 + w) c).
Proof.
  intros Hin Hv Hrem.
  rewrite (field_value_tag fuel t (be_bytes w v ++ rest)) by assumption.
  assert (Hr : remaining (stream (advanced 1 c)) = be_bytes w v ++ rest)
    by now apply (remaining_advanced [t]).
  rewrite <- advanced_advanced.
  unfold int_tags in Hin.
  repeat (apply elem_of_cons in Hin as [Hin | Hin];
          [injection Hin as -> -> ->; cbv beta; dispatch_tag; unfold_decoders;
           first [ now apply (unpack_signed _ _ v rest)
                 | now apply (unpack_unsigned _ _ v rest) ]|]).
  now apply elem_of_nil in Hin.
Qed.

Lemma field_value_integer_tags_witness :
  field_value 1 (Codec_init {| buf := "U"%char :: be_bytes 2 (-2); pos := 0 |})
  = Return (VInt (-2))
      (advanced 3
         (Codec_init {| buf := "U"%char :: be_bytes 2 (-2); pos := 0 |})).
Proof.
  apply (field_value_integer_tags 0 "U" true 2 (-2) []).
  - compute_done.
  - cbn. lia.
  - reflexivity.
Defined.

(** X11: through [field_value], the six bytes that [encode_decimal_value]
    writes (tag [D], scale, signed mantissa) come back as the decimal
    [mantissa * 10^-scale] only when the mantissa is not negative: the
    decoder reads the mantissa unsigned, so a negative one comes back as
    [mantissa + 2^32], with a positive sign. *)
Theorem field_value_decimal
    (fuel : nat) (scale mantissa : Z) (rest : bytes) (c : Codec) :
  0 <= scale <= 255 ->
  - 2 ^ 31 <= mantissa < 2 ^ 31 ->
  remaining (stream c)
  = b "D" ++ [chr scale] ++ be_bytes 4 mantissa ++ rest ->
  field_value (S fuel) c
  = Return (VDecimal (mkDecimal false
                        (if mantissa <? 0 then mantissa + 2 ^ 32 else mantissa)
                        (Exp (- scale))))
      (advanced 6 c).
Proof.
  intros Hs Hm Hrem.
  rewrite (field_value_tag fuel "D" ([chr scale] ++ be_bytes 4 mantissa ++ rest))
    by assumption.
  assert (Hr : remaining (stream (advanced 1 c))
               = [chr scale] ++ be_bytes 4 mantissa ++ rest)
    by now apply (remaining_advanced ["D"%char]).
  cbv beta. dispatch_tag.
  unfold decode_decimal_value, decode_short_short_uint, decode_long_uint.
  unfold bind at 1.
  rewrite (unpack_unsigned fmt_B 1 scale (be_bytes 4 mantissa ++ rest));
    [|reflexivity|reflexivity|change (256 ^ Z.of_nat 1) with 256; lia
     |now rewrite be_bytes_1 by lia].
  unfold bind at 1. cbn [int_of index ret].
  unfold bind at 1.
  rewrite (unpack_enough fmt_L (be_bytes 4 mantissa) rest);
    [|now apply (remaining_advanced [chr scale])|reflexivity].
  unfold struct_unpack.
  replace (len (be_bytes 4 mantissa) =? calcsize fmt_L) with true by reflexivity.
  cbn [int_code]. unfold bind. cbn [int_of index ret].
  rewrite be_int_be_bytes, !advanced_advanced.
  change (256 ^ Z.of_nat 4) with (2 ^ 32).
  change (1 + 1 + length (be_bytes 4 mantissa))%nat
    with (2 + length (be_bytes 4 mantissa))%nat.
  rewrite length_be_bytes. do 3 f_equal.
  destruct (mantissa <? 0) eqn:E;
    [apply Z.ltb_lt in E | apply Z.ltb_ge in E].
  - symmetry. apply (Z.mod_unique _ _ (-1)); lia.
  - apply Z.mod_small. lia.
Qed.

Lemma field_value_decimal_witness :
  field_value 1
    (Codec_init {| buf := b "D" ++ [chr 2] ++ be_bytes 4 (-314); pos := 0 |})
  = Return (VDecimal (mkDecimal false 4294966982 (Exp (-2))))
      (advanced 6
         (Codec_init {| buf := b "D" ++ [chr 2] ++ be_bytes 4 (-314);
                        pos := 0 |})).
Proof.
  apply (field_value_decimal 0 2 (-314) []); [lia | lia | reflexivity].
Defined.

(** ** Field arrays: edges *)

Lemma decode_field_array_loop (fuel : nat) (c : Codec) (data rest : bytes) :
  remaining (stream c) = data ++ rest ->
  length data = 4%nat ->
  decode_field_array fuel c
  = (do result <- array_loop (field_value fuel) fuel
                    (nread (advanced 4 c)) (to_signed 4 (be_int data)) [];
     do nread' <- get nread;
     let real_size := nread' - nread (advanced 4 c) in
     if negb (real_size =? to_signed 4 (be_int data)) then
       raise (ValueError (Problem_with_size_of_field_array real_size
                            (to_signed 4 (be_int data))))
     else ret result) (advanced 4 c).
Proof.
  intros Hrem Hlen. unfold decode_field_array, decode_field_array_with.
  unfold bind at 1. rewrite (decode_long_int_bytes data rest) by assumption.
  reflexivity.
Qed.

(** X12: a declared size of zero gives the empty array; a negative one is
    always refused: no element is read and [decode_field_array] raises the
    size mismatch [(0 != size)]. *)
Theorem decode_field_array_no_elements
    (fuel : nat) (c : Codec) (data rest : bytes) :
  remaining (stream c) = data ++ rest ->
  length data = 4%nat ->
  to_signed 4 (be_int data) <= 0 ->
  decode_field_array (S fuel) c
  = if to_signed 4 (be_int data) =? 0 then Return [] (advanced 4 c)
    else Raise (ValueError (Problem_with_size_of_field_array 0
                              (to_signed 4 (be_int data))))
           (advanced 4 c).
Proof.
  intros Hrem Hlen Hsize.
  rewrite (decode_field_array_loop _ c data rest) by assumption.
  unfold bind at 1. cbn [array_loop]. unfold bind at 1, get at 1.
  rewrite Z.sub_diag.
  replace (0 <? to_signed 4 (be_int data)) with false
    by (symmetry; apply Z.ltb_ge; lia).
  cbn [ret]. unfold bind, get. rewrite Z.sub_diag.
  now destruct (0 =? to_signed 4 (be_int data)) eqn:E;
    rewrite Z.eqb_sym, E.
Qed.

Lemma decode_field_array_no_elements_witness :
  decode_field_array 1
    (Codec_init {| buf := [chr 255; chr 255; chr 255; chr 255]; pos := 0 |})
  = Raise (ValueError (Problem_with_size_of_field_array 0 (-1)))
      (advanced 4
         (Codec_init {| buf := [chr 255; chr 255; chr 255; chr 255];
                        pos := 0 |})).
Proof.
  apply (decode_field_array_no_elements 0 _
           [chr 255; chr 255; chr 255; chr 255] []);
    [reflexivity | reflexivity | compute_done].
Defined.

Lemma array_loop_raise (fv : M value) (start size : Z) (c c1 : Codec)
    (l : list value) :
  elements_so_far fv start size c l c1 ->
  forall n result e c2,
    (length l < n)%nat ->
    nread c1 - start < size ->
    fv c1 = Raise e c2 ->
    array_loop fv n start size result c = Raise e c2.
Proof.
  induction 1 as [c | c c1 c2 v l Hc Hv Hl IH]; intros n result e c3 Hn Hlt He.
  - destruct n as [|n]; [lia|]. cbn [array_loop]. unfold bind at 1, get.
    replace (nread c - start <? size) with true
      by (symmetry; apply Z.ltb_lt; lia).
    unfold bind. now rewrite He.
  - destruct n as [|n]; [cbn in Hn; lia|]. cbn [array_loop].
    unfold bind at 1, get.
    replace (nread c - start <? size) with true
      by (symmetry; apply Z.ltb_lt; lia).
    unfold bind. rewrite Hv. apply (IH n); [cbn in Hn; lia | assumption..].
Qed.

(** X13: an error inside an array is the error of the array: when, with
    fewer than [size] bytes read so far, [field_value] raises on the next
    element (an unknown tag, [EOF] at the end of a truncated array, ...),
    [decode_field_array] raises that same exception at that point, not a
    size mismatch, and returns no partial list. *)
Theorem decode_field_array_propagates
    (fuel : nat) (c : Codec) (data rest : bytes)
    (l : list value) (c1 c2 : Codec) (e : exn) :
  remaining (stream c) = data ++ rest ->
  length data = 4%nat ->
  elements_so_far (field_value fuel) (nread (advanced 4 c))
    (to_signed 4 (be_int data)) (advanced 4 c) l c1 ->
  nread c1 - nread (advanced 4 c) < to_signed 4 (be_int data) ->
  field_value fuel c1 = Raise e c2 ->
  (length l < fuel)%nat ->
  decode_field_array fuel c = Raise e c2.
Proof.
  intros Hrem Hlen Hl Hlt He Hn.
  rewrite (decode_field_array_loop _ c data rest) by assumption.
  unfold bind at 1.
  now rewrite (array_loop_raise _ _ _ _ _ _ Hl fuel [] e c2).
Qed.

(** An array that announces five bytes and ends after a complete first
    element of two: [EOF], raised by the second [field_value]. *)
Lemma decode_field_array_propagates_witness :
  let c := Codec_init {| buf := [chr 0; chr 0; chr 0; chr 5; "t"%char; chr 1];
                         pos := 0 |} in
  decode_field_array 2 c = Raise EOF (advanced 6 c).
Proof.
  intros c.
  apply (decode_field_array_propagates 2 c
           [chr 0; chr 0; chr 0; chr 5] ["t"%char; chr 1]
           [VBool true] (advanced 6 c) (advanced 6 c) EOF).
  - reflexivity.
  - reflexivity.
  - apply (so_far_more _ _ _ _ (advanced 6 c)); [compute_done | reflexivity |].
    apply so_far_none.
  - compute_done.
  - reflexivity.
  - compute_done.
Defined.

(** ** Field arrays and nested tables: what decodes *)

Lemma elements_longs (fuel : nat) (start size : Z) (rest : bytes) :
  forall (l : list Z) (c : Codec),
    Forall (fun z => - 2 ^ 31 <= z < 2 ^ 31) l ->
    remaining (stream c)
    = flat_map (fun z => b "I" ++ be_bytes 4 z) l ++ rest ->
    nread c - start + 5 * len l = size ->
    elements (field_value (S fuel)) start size c (map VInt l)
      (advanced (5 * length l) c).
Proof.
  induction l as [|z l IH]; intros c Hl Hrem Hsize.
  - cbn [map length Nat.mul]. rewrite advanced_0.
    apply elements_done. unfold len in Hsize. cbn [length] in Hsize. lia.
  - apply Forall_cons in Hl as [Hz Hl]. cbn [flat_map map] in *.
    rewrite <- !app_assoc in Hrem.
    assert (Hlen : len (z :: l) = 1 + len l) by (unfold len; cbn [length]; lia).
    pose proof (len_nonneg l).
    apply (elements_more _ _ _ c (advanced 5 c)).
    + lia.
    + rewrite (field_value_I fuel z _ c Hrem).
      change (2 ^ 32) with (256 ^ Z.of_nat 4).
      now rewrite (to_signed_mod 4) by (lia || exact Hz).
    + replace (5 * length (z :: l))%nat with (5 + 5 * length l)%nat
        by (cbn [length]; lia).
      rewrite <- advanced_advanced. apply IH; [assumption| |].
      * rewrite app_assoc in Hrem.
        apply remaining_advanced in Hrem.
        now rewrite length_app, length_be_bytes in Hrem.
      * unfold advanced. cbn [nread set_nread set_stream]. lia.
Qed.

(** X14: an array of signed 32-bit integers decodes to those integers:
    when the declared size is the five bytes (tag [I], four bytes) of each
    element, [decode_field_array] returns them in order, negative values
    included, and reads exactly the declared size. *)
Theorem decode_field_array_longs
    (fuel : nat) (l : list Z) (rest : bytes) (c : Codec) :
  Forall (fun z => - 2 ^ 31 <= z < 2 ^ 31) l ->
  5 * len l < 2 ^ 31 ->
  remaining (stream c)
  = be_bytes 4 (5 * len l)
    ++ flat_map (fun z => b "I" ++ be_bytes 4 z) l ++ rest ->
  (length l < fuel)%nat ->
  decode_field_array fuel c
  = Return (map VInt l) (advanced (4 + 5 * length l) c).
Proof.
  intros Hl Hsize Hrem Hfuel. destruct fuel as [|fuel]; [lia|].
  pose proof (len_nonneg l).
  assert (Hs : to_signed 4 (be_int (be_bytes 4 (5 * len l))) = 5 * len l).
  { rewrite be_int_be_bytes. apply to_signed_mod; [lia|].
    change (2 ^ (8 * Z.of_nat 4 - 1)) with (2 ^ 31). lia. }
  rewrite (decode_field_array_loop _ c (be_bytes 4 (5 * len l)) _ Hrem)
    by apply length_be_bytes.
  rewrite Hs.
  assert (He : elements (field_value (S fuel)) (nread (advanced 4 c))
                 (5 * len l) (advanced 4 c) (map VInt l)
                 (advanced (5 * length l) (advanced 4 c))).
  { apply (elements_longs fuel _ _ rest); [assumption| |lia].
    replace 4%nat with (length (be_bytes 4 (5 * len l))) at 1
      by apply length_be_bytes.
    now apply remaining_advanced. }
  unfold bind at 1.
  rewrite (array_loop_elements _ _ _ _ _ _ He)
    by (rewrite length_map; lia).
  cbn [app]. unfold bind, get.
  replace (nread (advanced (5 * length l) (advanced 4 c))
           - nread (advanced 4 c) =? 5 * len l) with true
    by (symmetry; apply Z.eqb_eq; unfold advanced, len;
        cbn [nread set_nread set_stream]; lia).
  cbn [negb ret]. now rewrite advanced_advanced.
Qed.

Lemma decode_field_array_longs_witness :
  let wire := be_bytes 4 (5 * len [-1; 7])
              ++ flat_map (fun z => b "I" ++ be_bytes 4 z) [-1; 7] in
  decode_field_array 3 (Codec_init {| buf := wire; pos := 0 |})
  = Return [VInt (-1); VInt 7]
      (advanced 14 (Codec_init {| buf := wire; pos := 0 |})).
Proof.
  intros wire.
  apply (decode_field_array_longs 3 [-1; 7] []).
  - repeat constructor; lia.
  - reflexivity.
  - reflexivity.
  - cbn. lia.
Defined.

(** X15: a table nested as a field value decodes: on the tag [F] followed
    by the bytes [encode_field_table] writes for a table of strings and
    integers [0 <= v < 2^31], [field_value] returns that table as a
    dictionary and reads the tag, the four-byte size and the body. *)
Theorem field_value_table
    (fuel : nat) (tbl : gmap bytes value) (rest : bytes) (c : Codec) :
  (forall k v, tbl !! k = Some v -> len k < 256 /\ roundtrips v) ->
  len (table_body tbl) < 2 ^ 32 ->
  let wire := be_bytes 4 (len (table_body tbl)) ++ table_body tbl in
  remaining (stream c) = b "F" ++ wire ++ rest ->
  (size tbl < fuel)%nat ->
  field_value (S fuel) c = Return (VDict tbl) (advanced (1 + length wire) c).
Proof.
  intros Hv Hlen wire Hrem Hfuel.
  assert (Hok : Forall item_ok (map_to_list tbl)).
  { apply items_ok; [|assumption]. intros k v H.
    apply Hv in H as [Hk Hr]. auto using roundtrips_writable. }
  rewrite (field_value_tag fuel "F" (wire ++ rest)) by assumption.
  cbv beta. dispatch_tag. unfold bind.
  rewrite (decode_field_table_wrote fuel tbl rest);
    [|assumption|assumption|now apply (remaining_advanced ["F"%char])
     |assumption].
  cbn [ret]. rewrite advanced_advanced.
  rewrite fmap_fixed; [reflexivity|].
  intros k v H. apply decoded_roundtrips. now apply (Hv k).
Qed.

Lemma field_value_table_witness :
  let tbl : gmap bytes value := {[ b "one" := VInt 1 ]} in
  let wire := be_bytes 4 (len (table_body tbl)) ++ table_body tbl in
  let c := Codec_init {| buf := b "F" ++ wire; pos := 0 |} in
  field_value 3 c = Return (VDict tbl) (advanced (1 + length wire) c).
Proof.
  intros tbl wire c.
  apply (field_value_table 2 tbl []).
  - intros k v H. apply lookup_singleton_Some in H as [<- <-].
    split; [vm_compute; reflexivity | cbn; lia].
  - vm_compute. reflexivity.
  - unfold remaining, c. cbn [stream Codec_init buf pos drop].
    now rewrite app_nil_r.
  - unfold tbl. rewrite map_size_singleton. lia.
Defined.

(** ** Field tables: what the decoder does not check *)

(** The loop of [decode_field_table] when the declared size ends inside (or
    at the end of) the last item: the item is decoded whole. *)
Lemma table_loop_last (fuel : nat) (start size : Z) (rest : bytes)
    (last : bytes * value) :
  forall (items : list (bytes * value)) (n : nat)
         (result : gmap bytes value) (c : Codec),
    Forall item_ok (items ++ [last]) ->
    remaining (stream c) = flat_map item_enc (items ++ [last]) ++ rest ->
    nread c - start + len (flat_map item_enc items) < size ->
    size <= nread c - start + len (flat_map item_enc (items ++ [last])) ->
    (length items + 1 < n)%nat ->
    table_loop (field_value (S fuel)) n start size result c
    = Return (fold_left (fun m item => <[item.1 := decoded item.2]> m)
                (items ++ [last]) result)
        (advanced (length (flat_map item_enc (items ++ [last]))) c).
Proof.
  induction items as [|item items IH];
    intros n result c Hok Hrem Hlo Hhi Hn.
  - cbn [app flat_map length] in *. rewrite app_nil_r in *.
    apply Forall_cons in Hok as [Hi _].
    destruct n as [|[|n]]; [lia | lia |].
    destruct (decode_item fuel last _ c Hi Hrem) as [Hkey Hval].
    unfold len in Hlo. cbn [length] in Hlo.
    cbn [table_loop]. unfold bind at 1, get.
    replace (nread c - start <? size) with true
      by (symmetry; apply Z.ltb_lt; lia).
    unfold bind at 1. rewrite Hkey. unfold bind at 1. rewrite Hval.
    unfold bind, get.
    replace (nread (advanced (length (item_enc last)) c) - start <? size)
      with false
      by (symmetry; apply Z.ltb_ge; unfold advanced, len in *;
          cbn [nread set_nread set_stream]; lia).
    reflexivity.
  - destruct n as [|n]; [lia|]. cbn [table_loop].
    cbn [app flat_map] in *. apply Forall_cons in Hok as [Hi Hok].
    rewrite !len_app in *. rewrite <- app_assoc in Hrem.
    pose proof (len_item_enc_pos item).
    pose proof (len_nonneg (flat_map item_enc items)).
    destruct (decode_item fuel item _ c Hi Hrem) as [Hkey Hval].
    unfold bind at 1, get.
    replace (nread c - start <? size) with true
      by (symmetry; apply Z.ltb_lt; lia).
    unfold bind at 1. rewrite Hkey. unfold bind at 1. rewrite Hval.
    rewrite IH; [|assumption|now apply remaining_advanced| | |cbn in Hn; lia].
    + cbn [fold_left]. rewrite advanced_advanced. now rewrite length_app.
    + unfold advanced, len in *. cbn [nread set_nread set_stream]. lia.
    + unfold advanced, len in *. cbn [nread set_nread set_stream]. lia.
Qed.

(** X16: [decode_field_table] has no check of the size it was given: when
    the declared size ends anywhere inside the last item, that item is
    still decoded whole; the table is returned, no error is raised, and
    more bytes than declared have been read. *)
Theorem decode_field_table_overread
    (fuel : nat) (items : list (bytes * value)) (last : bytes * value)
    (size : Z) (rest : bytes) (c : Codec) :
  Forall item_ok (items ++ [last]) ->
  len (flat_map item_enc items) < size ->
  size <= len (flat_map item_enc (items ++ [last])) ->
  size < 2 ^ 32 ->
  remaining (stream c)
  = be_bytes 4 size ++ flat_map item_enc (items ++ [last]) ++ rest ->
  (length items + 1 < fuel)%nat ->
  exists c',
    decode_field_table fuel c
    = Return (fold_left (fun m item => <[item.1 := decoded item.2]> m)
                (items ++ [last]) ∅) c'
    /\ nread c' - (nread c + 4) = len (flat_map item_enc (items ++ [last]))
    /\ size <= nread c' - (nread c + 4).
Proof.
  intros Hok Hlo Hhi Hsize Hrem Hfuel.
  destruct fuel as [|fuel]; [lia|].
  pose proof (len_nonneg (flat_map item_enc items)).
  exists (advanced (length (flat_map item_enc (items ++ [last])))
            (advanced 4 c)).
  split; [|unfold advanced, len in *; cbn [nread set_nread set_stream]; lia].
  unfold decode_field_table, decode_field_table_with, decode_long_uint.
  unfold bind at 1.
  rewrite (unpack_unsigned fmt_L 4 size
             (flat_map item_enc (items ++ [last]) ++ rest));
    [|reflexivity|reflexivity|change (256 ^ Z.of_nat 4) with (2 ^ 32); lia
     |assumption].
  unfold bind at 1. cbn [int_of index ret]. unfold bind, get.
  apply (table_loop_last fuel _ _ rest); try assumption.
  - replace 4%nat with (length (be_bytes 4 size)) at 1
      by apply length_be_bytes.
    now apply remaining_advanced.
  - lia.
  - lia.
Qed.

(** A table that declares one byte and holds the nine of [one = 1]. *)
Lemma decode_field_table_overread_witness :
  let item := (b "one", VInt 1) in
  let c := Codec_init {| buf := be_bytes 4 1 ++ item_enc item; pos := 0 |} in
  exists c',
    decode_field_table 2 c = Return {[ b "one" := VInt 1 ]} c'
    /\ nread c' - (nread c + 4) = 9.
Proof.
  intros item c.
  destruct (decode_field_table_overread 2 [] item 1 [] c)
    as (c' & H1 & H2 & _).
  - cbn [app]. apply Forall_cons. split; [|constructor].
    split; [reflexivity | exists 1; split; [reflexivity | lia]].
  - reflexivity.
  - vm_compute. discriminate.
  - reflexivity.
  - unfold remaining, c. cbn [stream Codec_init buf pos drop app flat_map].
    now rewrite !app_nil_r.
  - cbn [length]. lia.
  - exists c'. split.
    + rewrite H1. cbn [app fold_left]. now rewrite insert_empty.
    + rewrite H2. vm_compute. reflexivity.
Defined.

Lemma fold_insert_other (f : value -> value) (k : bytes)
    (items : list (bytes * value)) (acc : gmap bytes value) :
  k ∉ items.*1 ->
  fold_left (fun m item => <[item.1 := f item.2]> m) items acc !! k = acc !! k.
Proof.
  revert acc. induction items as [|[k' v'] items IH]; intros acc Hk;
    [reflexivity|].
  cbn [fmap list_fmap fst] in Hk. apply not_elem_of_cons in Hk as [Hne Hk].
  cbn [fold_left fst snd]. rewrite IH by assumption.
  now apply lookup_insert_ne.
Qed.

Lemma decode_field_table_items (fuel : nat) (items : list (bytes * value))
    (rest : bytes) (c : Codec) :
  Forall item_ok items ->
  len (flat_map item_enc items) < 2 ^ 32 ->
  remaining (stream c)
  = be_bytes 4 (len (flat_map item_enc items))
    ++ flat_map item_enc items ++ rest ->
  (length items < fuel)%nat ->
  decode_field_table fuel c
  = Return (fold_left (fun m item => <[item.1 := decoded item.2]> m) items ∅)
      (advanced (4 + length (flat_map item_enc items)) c).
Proof.
  intros Hok Hlen Hrem Hfuel.
  destruct fuel as [|fuel]; [lia|].
  pose proof (len_nonneg (flat_map item_enc items)).
  unfold decode_field_table, decode_field_table_with, decode_long_uint.
  unfold bind at 1.
  rewrite (unpack_unsigned fmt_L 4 (len (flat_map item_enc items))
             (flat_map item_enc items ++ rest));
    [|reflexivity|reflexivity|change (256 ^ Z.of_nat 4) with (2 ^ 32); lia
     |assumption].
  unfold bind at 1. cbn [int_of index ret]. unfold bind, get.
  rewrite (table_loop_items fuel _ _ rest items).
  - now rewrite advanced_advanced.
  - assumption.
  - replace 4%nat with (length (be_bytes 4 (len (flat_map item_enc items))))
      at 1 by apply length_be_bytes.
    now apply remaining_advanced.
  - lia.
  - assumption.
Qed.

(** X17: when a key comes more than once in the bytes of a table, the last
    occurrence wins: [decode_field_table] returns a dictionary that maps
    the key to the value decoded from its last item. *)
Theorem decode_field_table_last_wins
    (fuel : nat) (before after : list (bytes * value)) (k : bytes) (v : value)
    (rest : bytes) (c : Codec) :
  let items := before ++ (k, v) :: after in
  Forall item_ok items ->
  k ∉ after.*1 ->
  len (flat_map item_enc items) < 2 ^ 32 ->
  remaining (stream c)
  = be_bytes 4 (len (flat_map item_enc items))
    ++ flat_map item_enc items ++ rest ->
  (length items < fuel)%nat ->
  exists m c',
    decode_field_table fuel c = Return m c'
    /\ m !! k = Some (decoded v).
Proof.
  intros items Hok Hk Hlen Hrem Hfuel.
  eexists _, _. split; [now apply (decode_field_table_items fuel items rest)|].
  unfold items. rewrite fold_left_app. cbn [fold_left fst snd].
  rewrite fold_insert_other by assumption.
  apply lookup_insert_eq.
Qed.

Lemma decode_field_table_last_wins_witness :
  let items := [(b "k", VInt 1); (b "k", VInt 2)] in
  let wire := be_bytes 4 (len (flat_map item_enc items))
              ++ flat_map item_enc items in
  exists m c',
    decode_field_table 3 (Codec_init {| buf := wire; pos := 0 |})
    = Return m c'
    /\ m !! b "k" = Some (decoded (VInt 2)).
Proof.
  intros items wire.
  apply (decode_field_table_last_wins 3 [(b "k", VInt 1)] [] (b "k") (VInt 2) []).
  - repeat constructor; try reflexivity;
      eexists; (split; [reflexivity | lia]).
  - apply not_elem_of_nil.
  - reflexivity.
  - unfold remaining. cbn [stream Codec_init buf pos drop].
    now rewrite app_nil_r.
  - cbn. lia.
Defined.

(** ** Encoders that fail: what is left behind *)

Lemma fails_bind_l {A B} (m : M A) (k : A -> M B) :
  fails m -> fails (bind m k).
Proof. intros Hm c. unfold bind. destruct (Hm c) as (c' & ->). eauto. Qed.

Lemma fails_encode_item_key (key : bytes) (v : value) :
  256 <= len key -> fails (encode_item (key, v)).
Proof.
  intros Hk. unfold encode_item. apply fails_bind_l.
  unfold encode_shortstr, encode_short_string, encode_short_short_uint.
  apply fails_bind_l. intros c. exists c.
  apply (pack_out_of_range fmt_B 1); [reflexivity|].
  change (256 ^ Z.of_nat 1) with 256. lia.
Qed.

(** X18: [encode_field_table] is all or nothing.  When one key of the table
    is longer than 255 bytes, or one integer value is outside
    [0, 2^32 - 1], the call raises [struct.error] and the codec is as it
    was: the items encoded before the bad one went to the inner buffer
    only, nothing reaches the stream, [nwrote] is unchanged and the pending
    bits are still queued. *)
Theorem encode_field_table_all_or_nothing
    (tbl : gmap bytes value) (k : bytes) (v : value) (c : Codec) :
  tbl !! k = Some v ->
  256 <= len k \/ (exists z, v = VInt z /\ ~ (0 <= z < 2 ^ 32)) ->
  encode_field_table tbl c = Raise struct_error c.
Proof.
  intros Hk Hbad. unfold encode_field_table.
  assert (Hf : fails (encode_item (k, v))).
  { destruct Hbad as [Hlen | (z & -> & Hz)];
      [now apply fails_encode_item_key | now apply fails_encode_item_long]. }
  destruct (fails_for_encode_item (k, v) (map_to_list tbl)
              (proj2 (elem_of_map_to_list tbl k v) Hk) Hf
              (Codec_init StringIO_new)) as (c' & ->).
  reflexivity.
Qed.

Lemma encode_field_table_all_or_nothing_witness :
  let c := set_outgoing_bits [true] (Codec_init StringIO_new) in
  encode_field_table {[ b "n" := VInt (-1) ]} c = Raise struct_error c.
Proof.
  intros c.
  apply (encode_field_table_all_or_nothing _ (b "n") (VInt (-1))).
  - apply lookup_singleton_eq.
  - right. exists (-1). split; [reflexivity | lia].
Defined.




(** ** The long string and its decoder *)

(** X20: a long string never comes back.  [encode_long_string] writes the
    length on one byte and [decode_long_string] reads it on four: on the
    bytes that [encode_long_string(s)] wrote to a fresh stream (for an [s]
    of at most 255 bytes, the ones it accepts), [decode_long_string] raises
    or returns a string shorter than [s], never [s]. *)
Theorem long_string_no_roundtrip (s : bytes) :
  len s < 256 ->
  let c1 := fresh ([chr (len s)] ++ s) in
  encode_long_string s (Codec_init StringIO_new) = Return tt c1
  /\ forall c2, decode_long_string (rewind c1) <> Return s c2.
Proof.
  intros Hs c1. split.
  - change (encode_long_string s) with (encode_short_string s).
    rewrite encode_short_string_wrote by (reflexivity || assumption).
    f_equal. apply (wrote_fresh _ []).
  - intros c2.
    assert (Hrem : remaining (stream (rewind c1)) = chr (len s) :: s)
      by reflexivity.
    unfold decode_long_string, decode_long_uint. unfold bind at 1.
    destruct s as [|a0 [|a1 [|a2 s']]].
    1-3: rewrite unpack_short;
      [discriminate | rewrite Hrem; cbn [length]; lia
      | rewrite Hrem; unfold len; cbn [length calcsize]; lia].
    rewrite (unpack_enough fmt_L [chr (len (a0 :: a1 :: a2 :: s')); a0; a1; a2]
               s') by (exact Hrem || reflexivity).
    unfold struct_unpack.
    change (len [chr (len (a0 :: a1 :: a2 :: s')); a0; a1; a2] =? calcsize fmt_L)
      with true.
    cbn [int_code]. unfold bind at 1. cbn [int_of index ret].
    rewrite read_spec by apply be_int_range. cbv zeta.
    match goal with
    | |- context [if ?x then _ else _] => destruct x; [discriminate|]
    end.
    intros H. injection H as H _.
    apply (f_equal (@length ascii)) in H.
    rewrite length_take in H. cbn [length] in H. unfold advanced in H.
    cbn [stream set_nread set_stream] in H.
    unfold remaining in H. cbn [buf pos drop] in H. rewrite drop_0 in H. lia.
Qed.

Lemma long_string_no_roundtrip_witness :
  encode_long_string (b "asdf") (Codec_init StringIO_new)
  = Return tt (fresh ([chr (len (b "asdf"))] ++ b "asdf"))
  /\ forall c2,
       decode_long_string (rewind (fresh ([chr (len (b "asdf"))] ++ b "asdf")))
       <> Return (b "asdf") c2.
Proof. apply (long_string_no_roundtrip (b "asdf")). reflexivity. Defined.

(** ** Bits next to other fields *)

(** X21: bits do not survive a field written between them.  The encoder
    closes the current octet of bits at every write, so a bit, an octet and
    another bit go out as three bytes; the decoder keeps the unread bits of
    the octet it unpacked, so the second [decode_bit] takes bit 1 of the
    first byte and not the third byte: it returns [False] whatever was
    encoded, and only two of the three bytes are read. *)
Theorem bit_octet_bit_misaligned (b0 b1 : bool) (y : Z) :
  0 <= y < 256 ->
  let out := [chr (if b0 then 1 else 0); chr y; chr (if b1 then 1 else 0)] in
  (encode_bit b0 ;; encode_octet (VInt y) ;; encode_bit b1 ;; flush)
    (Codec_init StringIO_new)
  = Return tt (fresh out)
  /\ exists c2,
       (do x0 <- decode_bit;
        do o <- decode_octet;
        do x1 <- decode_bit;
        ret (x0, o, x1)) (rewind (fresh out))
       = Return (b0, VInt y, false) c2
       /\ nread c2 = 2.
Proof.
  intros Hy out. split.
  - unfold bind at 1.
    assert (H0 : encode_bit b0 (Codec_init StringIO_new)
                 = Return tt (set_outgoing_bits [b0] (Codec_init StringIO_new)))
      by (destruct b0; reflexivity).
    rewrite H0. unfold bind at 1. unfold encode_octet, encode_short_short_uint.
    rewrite (pack_integer fmt_B false 1 y)
      by (reflexivity || (apply in_range_unsigned;
                          change (256 ^ Z.of_nat 1) with 256; lia)).
    rewrite be_bytes_1 by lia. unfold bind at 1.
    set (c := wrote [chr y]
                (flushed (set_outgoing_bits [b0] (Codec_init StringIO_new)))).
    assert (H1 : encode_bit b1 c
                 = Return tt (set_outgoing_bits (outgoing_bits c ++ [b1]) c))
      by (destruct b1; reflexivity).
    rewrite H1. unfold flush. rewrite flushbits_flushed. f_equal.
    unfold c, out. destruct b0, b1; reflexivity.
  - set (c := rewind (fresh out)).
    assert (Hrem : remaining (stream c) = out) by reflexivity.
    unfold bind at 1.
    rewrite (decode_bit_refill (chr (if b0 then 1 else 0))
               [chr y; chr (if b1 then 1 else 0)] c eq_refl Hrem).
    set (c' := set_incoming_bits
                 (tl (unpack8 (ord (chr (if b0 then 1 else 0)))))
                 (advanced 1 c)).
    unfold bind at 1.
    rewrite (decode_octet_byte (chr y) [chr (if b1 then 1 else 0)] c')
      by reflexivity.
    rewrite (ord_chr y) by assumption. unfold bind at 1.
    rewrite (decode_bit_pop false (replicate 6 false) (advanced 1 c'))
      by (destruct b0; reflexivity).
    exists (set_incoming_bits (replicate 6 false) (advanced 1 c')).
    split; [|reflexivity].
    cbn [ret]. destruct b0; reflexivity.
Qed.

Lemma bit_octet_bit_misaligned_witness :
  let out := [chr 1; chr 7; chr 1] in
  (encode_bit true ;; encode_octet (VInt 7) ;; encode_bit true ;; flush)
    (Codec_init StringIO_new)
  = Return tt (fresh out)
  /\ exists c2,
       (do x0 <- decode_bit;
        do o <- decode_octet;
        do x1 <- decode_bit;
        ret (x0, o, x1)) (rewind (fresh out))
       = Return (true, VInt 7, false) c2
       /\ nread c2 = 2.
Proof. apply (bit_octet_bit_misaligned true true 7). lia. Defined.

(** ** Field tables cut short *)

Lemma table_loop_eof (fuel : nat) (start size : Z) :
  forall (items : list (bytes * value)) (n : nat)
         (result : gmap bytes value) (c : Codec),
    Forall item_ok items ->
    remaining (stream c) = flat_map item_enc items ->
    nread c - start + len (flat_map item_enc items) < size ->
    (length items < n)%nat ->
    table_loop (field_value (S fuel)) n start size result c
    = Raise EOF (advanced (length (flat_map item_enc items)) c).
Proof.
  induction items as [|item items IH]; intros n result c Hok Hrem Hsize Hn.
  - destruct n as [|n]; [cbn in Hn; lia|]. cbn [table_loop].
    cbn [flat_map length] in *. unfold len in Hsize. cbn [length] in Hsize.
    unfold bind at 1, get.
    replace (nread c - start <? size) with true
      by (symmetry; apply Z.ltb_lt; lia).
    unfold bind at 1. unfold decode_short_string, decode_short_short_uint.
    unfold bind at 1. rewrite unpack_eof by assumption.
    now rewrite advanced_0.
  - destruct n as [|n]; [cbn in Hn; lia|]. cbn [table_loop].
    cbn [flat_map] in *. apply Forall_cons in Hok as [Hi Hok].
    rewrite len_app in Hsize.
    pose proof (len_item_enc_pos item).
    pose proof (len_nonneg (flat_map item_enc items)).
    destruct (decode_item fuel item _ c Hi Hrem) as [Hkey Hval].
    unfold bind at 1, get.
    replace (nread c - start <? size) with true
      by (symmetry; apply Z.ltb_lt; lia).
    unfold bind at 1. rewrite Hkey. unfold bind at 1. rewrite Hval.
    rewrite IH; [|assumption| | |cbn in Hn; lia].
    + rewrite advanced_advanced. now rewrite length_app.
    + now apply remaining_advanced.
    + unfold advanced, len in *. cbn [nread set_nread set_stream]. lia.
Qed.

(** X22: a table cut short is an [EOF], not a shorter table.  When the
    stream ends after some whole items and before the declared size is
    reached, [decode_field_table] raises [EOF] once everything is read: the
    items decoded so far are not returned. *)
Theorem decode_field_table_cut_short
    (fuel : nat) (items : list (bytes * value)) (size : Z) (c : Codec) :
  Forall item_ok items ->
  len (flat_map item_enc items) < size < 2 ^ 32 ->
  remaining (stream c) = be_bytes 4 size ++ flat_map item_enc items ->
  (length items < fuel)%nat ->
  decode_field_table fuel c
  = Raise EOF (advanced (4 + length (flat_map item_enc items)) c).
Proof.
  intros Hok Hsize Hrem Hfuel.
  destruct fuel as [|fuel]; [lia|].
  pose proof (len_nonneg (flat_map item_enc items)).
  unfold decode_field_table, decode_field_table_with, decode_long_uint.
  unfold bind at 1.
  rewrite (unpack_unsigned fmt_L 4 size (flat_map item_enc items));
    [|reflexivity|reflexivity|change (256 ^ Z.of_nat 4) with (2 ^ 32); lia
     |assumption].
  unfold bind at 1. cbn [int_of index ret]. unfold bind, get.
  rewrite (table_loop_eof fuel _ _ items).
  - now rewrite advanced_advanced.
  - assumption.
  - replace 4%nat with (length (be_bytes 4 size)) at 1
      by apply length_be_bytes.
    now apply remaining_advanced.
  - lia.
  - lia.
Qed.

(** A table that declares ten bytes and holds the nine of [one = 1]. *)
Lemma decode_field_table_cut_short_witness :
  let items := [(b "one", VInt 1)] in
  let c := Codec_init {| buf := be_bytes 4 10 ++ flat_map item_enc items;
                         pos := 0 |} in
  decode_field_table 2 c
  = Raise EOF (advanced (4 + length (flat_map item_enc items)) c).
Proof.
  intros items c.
  apply (decode_field_table_cut_short 2 items 10 c).
  - apply Forall_cons. split; [|constructor].
    split; [reflexivity | exists 1; split; [reflexivity | lia]].
  - split; reflexivity.
  - reflexivity.
  - cbn [length items]. lia.
Defined.

(** ** Booleans *)

(** X23: a boolean takes one byte and comes back as the truth value of
    what was encoded.  [encode_boolean(o)] writes [01] when [o] is true in
    Python's sense and [00] otherwise, after the pending bits;
    [decode_boolean] reads one byte and returns [True] for any byte but
    [00], so on the byte written for [o] it returns [bool(o)]. *)
Theorem boolean_roundtrip (o : value) (a : ascii) (rest rest' : bytes)
    (c d d' : Codec) :
  remaining (stream d) = a :: rest ->
  remaining (stream d') = chr (if truth o then 1 else 0) :: rest' ->
  encode_boolean o c
  = Return tt (wrote [chr (if truth o then 1 else 0)] (flushed c))
  /\ decode_boolean d = Return (VBool (negb (ord a =? 0))) (advanced 1 d)
  /\ decode_boolean d' = Return (VBool (truth o)) (advanced 1 d').
Proof.
  intros Hd Hd'.
  assert (Hdec : forall x tail e,
             remaining (stream e) = x :: tail ->
             decode_boolean e
             = Return (VBool (negb (ord x =? 0))) (advanced 1 e)).
  { intros x tail e He. unfold decode_boolean.
    rewrite (unpack_enough fmt_bool [x] tail) by (assumption || reflexivity).
    unfold struct_unpack.
    change (len [x] =? calcsize fmt_bool) with true. cbv iota.
    now rewrite be_int_1. }
  split; [|split].
  - unfold encode_boolean. now apply pack_wrote.
  - now apply (Hdec a rest).
  - rewrite (Hdec _ rest' d' Hd'). do 2 f_equal.
    destruct (truth o); reflexivity.
Qed.

Lemma boolean_roundtrip_witness :
  let c := Codec_init StringIO_new in
  let d := Codec_init {| buf := [chr 2]; pos := 0 |} in
  let d' := Codec_init {| buf := [chr 1]; pos := 0 |} in
  encode_boolean (VInt 5) c = Return tt (wrote [chr 1] (flushed c))
  /\ decode_boolean d = Return (VBool true) (advanced 1 d)
  /\ decode_boolean d' = Return (VBool true) (advanced 1 d').
Proof.
  intros c d d'.
  apply (boolean_roundtrip (VInt 5) (chr 2) [] [] c d d'); reflexivity.
Defined.
